(** * X1 territory-capture game: the grid simulation engine of [src/game.js]

    A shallow embedding of the engine part of [game.js] (flood fill, drone and
    enemy motion, capture, death, per-frame tick) and the properties of the
    engine stated in the specification.

    Conventions of the embedding.
    - A JavaScript number that holds a position or a velocity is a binary64
      float ([float], the kernel's primitive floats): additions and
      comparisons are the IEEE ones.
    - A JavaScript number that is a loop counter, a cell coordinate or a
      counter ([trailCount], [lives], [level]) is an integer of [Z]; all of
      them stay far below 2^53, where doubles are exact.
    - The result of [Math.floor] is an integral double, an infinity or NaN:
      type [inum].
    - [grid] is an array of rows: [grid[y][x]] is [row y], column [x].
    - Rendering (meshes, lights, camera), the statistics tracker and the DOM
      are left out; the calls to the audio object and to [showMessage] are
      recorded as signals in a log, and the visibility of the message box is a
      boolean of the game state. *)

From Stdlib Require Import ZArith Floats.
From stdpp Require Import base numbers list relations.

Local Open Scope Z_scope.
#[local] Set Warnings "-inexact-float".

(** ** JavaScript numbers *)

(** The value of [Math.floor(v)]. *)
Inductive inum := Fin (z : Z) | PInf | NInf | NaN.

Definition Math_floor (f : float) : inum :=
  match Prim2SF f with
  | S754_zero _ => Fin 0
  | S754_infinity false => PInf
  | S754_infinity true => NInf
  | S754_nan => NaN
  | S754_finite s m e => Fin (Z.shiftl (if s then Z.neg m else Z.pos m) e)
  end.

(** The double that holds the integer [z] (exact below 2^53). *)
Definition num_of_Z (z : Z) : float :=
  SF2Prim (binary_normalize prec emax z 0 false).

(** [a === Math.floor(..)] and [a !== ..] on floored values. *)
Definition inum_eqb (a b : inum) : bool :=
  match a, b with
  | Fin x, Fin y => x =? y
  | PInf, PInf | NInf, NInf => true
  | _, _ => false
  end.

(** [a < k] and [a >= k] for a floored value [a] and an integer [k]. *)
Definition inum_ltb (a : inum) (k : Z) : bool :=
  match a with Fin x => x <? k | NInf => true | _ => false end.

Definition inum_geb (a : inum) (k : Z) : bool :=
  match a with Fin x => k <=? x | PInf => true | _ => false end.

(** ** Constants *)

Definition TARGET_PERCENT : Z := 80.

Inductive CELL_TYPE := EMPTY | OCCUPIED | TRAIL.

Global Instance CELL_TYPE_eq_dec : EqDecision CELL_TYPE.
Proof. solve_decision. Defined.

(** A cell coordinate [[x, y]]. *)
Abbreviation pos := (Z * Z)%type.

(** ** Two-dimensional arrays *)

(** [a[y][x]] for integer indices, as the loops over
    [0 .. GRID_SIZE - 1] read the grid and [visited]; [None] is [undefined]
    (in a square array the row of such an index exists). *)
Definition rd {A} (a : list (list A)) (x y : Z) : option A :=
  if (0 <=? x) && (0 <=? y)
  then a !! Z.to_nat y ≫= λ row, row !! Z.to_nat x
  else None.

(** [a[y][x] = v] on an existing cell. *)
Definition wr {A} (a : list (list A)) (x y : Z) (v : A) : list (list A) :=
  alter (λ row, <[Z.to_nat x := v]> row) (Z.to_nat y) a.

(** [for (y = 0; y < n; y++) for (x = 0; x < n; x++) body]. *)
Definition for_cells {S} (n : Z) (body : Z → Z → S → S) (s : S) : S :=
  fold_left (λ s y, fold_left (λ s x, body x y s) (seqZ 0 n) s) (seqZ 0 n) s.

Definition is_cell (c : CELL_TYPE) (v : option CELL_TYPE) : bool :=
  bool_decide (v = Some c).

(** ** Exceptions

    Reading [a[i][j]] throws a TypeError when [a[i]] is [undefined]. A method
    that throws leaves the object as it was at that point. *)

Inductive result (A : Type) := Ok (a : A) | Throw (a : A).
Arguments Ok {A} a.
Arguments Throw {A} a.

Definition state_of {A} (r : result A) : A :=
  match r with Ok a | Throw a => a end.

Definition bind {A} (r : result A) (k : A → result A) : result A :=
  match r with Ok a => k a | Throw a => Throw a end.

Notation "r >>= k" := (bind r k) (at level 50, left associativity).

(** The array index that a floored value denotes, if any. *)
Definition index (i : inum) : option nat :=
  match i with
  | Fin z => if 0 <=? z then Some (Z.to_nat z) else None
  | _ => None
  end.

(** [a[i][j]] for floored values [i] and [j]: [None] is the TypeError,
    [Some None] is [undefined]. *)
Definition get2 {A} (a : list (list A)) (i j : inum) : option (option A) :=
  match index i ≫= λ n, a !! n with
  | None => None
  | Some row => Some (index j ≫= λ n, row !! n)
  end.

(** [a[i][j] = v], used on cells that exist. *)
Definition set2 {A} (a : list (list A)) (i j : inum) (v : A) : list (list A) :=
  match index i, index j with
  | Some n, Some m => alter (λ row, <[m := v]> row) n a
  | _, _ => a
  end.

(** [b || e] where evaluating [e] may throw. *)
Definition or_else (b : bool) (e : option bool) : option bool :=
  if b then Some true else e.

(** ** class Enemy *)

Inductive kind := ball | mine.

Module Enemy.

Record t := mk {
  x : float; z : float;
  type : kind;
  speed : float;
  vx : float; vz : float
}.

Definition set_vx (v : float) (e : t) : t :=
  {| x := x e; z := z e; type := type e; speed := speed e; vx := v; vz := vz e |}.
Definition set_vz (v : float) (e : t) : t :=
  {| x := x e; z := z e; type := type e; speed := speed e; vx := vx e; vz := v |}.
Definition set_xz (x' z' : float) (e : t) : t :=
  {| x := x'; z := z'; type := type e; speed := speed e; vx := vx e; vz := vz e |}.

Definition update (GRID_SIZE : Z) (grid : list (list CELL_TYPE)) (e : t) : result t :=
  let nextX := (x e + vx e)%float in
  let nextZ := (z e + vz e)%float in
  let gridX := Math_floor nextX in
  let gridZ := Math_floor nextZ in
  match type e with
  | ball =>
      match or_else (inum_ltb gridX 0 || inum_geb gridX GRID_SIZE)
              (is_cell OCCUPIED <$> get2 grid (Math_floor (z e)) gridX) with
      | None => Throw e
      | Some bx =>
          let e1 := if bx then set_vx (vx e * -1)%float e else e in
          let nextX := if bx then (x e1 + vx e1)%float else nextX in
          match or_else (inum_ltb gridZ 0 || inum_geb gridZ GRID_SIZE)
                  (is_cell OCCUPIED <$> get2 grid gridZ (Math_floor (x e1))) with
          | None => Throw e1
          | Some bz =>
              let e2 := if bz then set_vz (vz e1 * -1)%float e1 else e1 in
              let nextZ := if bz then (z e2 + vz e2)%float else nextZ in
              Ok (set_xz nextX nextZ e2)
          end
      end
  | mine =>
      match or_else (inum_ltb gridX 0 || inum_geb gridX GRID_SIZE)
              (negb ∘ is_cell OCCUPIED <$> get2 grid (Math_floor (z e)) gridX) with
      | None => Throw e
      | Some bx =>
          let e1 := if bx then set_vx (vx e * -1)%float e else e in
          let nextX := if bx then (x e1 + vx e1)%float else nextX in
          match or_else (inum_ltb gridZ 0 || inum_geb gridZ GRID_SIZE)
                  (negb ∘ is_cell OCCUPIED <$> get2 grid gridZ (Math_floor (x e1))) with
          | None => Throw e1
          | Some bz =>
              let e2 := if bz then set_vz (vz e1 * -1)%float e1 else e1 in
              let nextZ := if bz then (z e2 + vz e2)%float else nextZ in
              Ok (set_xz nextX nextZ e2)
          end
      end
  end.

End Enemy.

(** ** class Drone *)

Module Drone.

Record t := mk {
  x : float; z : float;
  vx : float; vz : float;
  lastX : inum; lastZ : inum;
  speed : float
}.

(** The fields set by the constructor. *)
Definition new : t :=
  {| x := 0; z := 0; vx := 0; vz := 0; lastX := Fin (-1); lastZ := Fin (-1);
     speed := 0.15 |}.

(** [nextX >= 0 && nextX < GRID_SIZE && nextZ >= 0 && nextZ < GRID_SIZE]. *)
Definition inside (GRID_SIZE : Z) (x z : float) : bool :=
  (0 <=? x)%float && (x <? num_of_Z GRID_SIZE)%float
  && (0 <=? z)%float && (z <? num_of_Z GRID_SIZE)%float.

Definition update (GRID_SIZE : Z) (d : t) : t :=
  let nextX := (x d + vx d)%float in
  let nextZ := (z d + vz d)%float in
  if inside GRID_SIZE nextX nextZ
  then {| x := nextX; z := nextZ; vx := vx d; vz := vz d;
          lastX := lastX d; lastZ := lastZ d; speed := speed d |}
  else d.

Definition reset (x' z' : float) (d : t) : t :=
  {| x := x'; z := z'; vx := 0; vz := 0;
     lastX := Math_floor x'; lastZ := Math_floor z'; speed := speed d |}.

Definition set_v (vx' vz' : float) (d : t) : t :=
  {| x := x d; z := z d; vx := vx'; vz := vz';
     lastX := lastX d; lastZ := lastZ d; speed := speed d |}.

Definition set_last (gx gz : inum) (d : t) : t :=
  {| x := x d; z := z d; vx := vx d; vz := vz d;
     lastX := gx; lastZ := gz; speed := speed d |}.

Definition set_speed (v : float) (d : t) : t :=
  {| x := x d; z := z d; vx := vx d; vz := vz d;
     lastX := lastX d; lastZ := lastZ d; speed := v |}.

End Drone.

(** ** class FloodFill *)

Module FloodFill.

(** The variables of one run of the [while] loop. *)
Record loop := mk {
  queue : list pos;
  visited : list (list bool);
  area : list pos;
  hasEnemy : bool
}.

(** [!visited[y][x]] is [negb (seen v x y)]. *)
Definition seen (v : list (list bool)) (x y : Z) : bool :=
  default false (rd v x y).

(** [e => Math.floor(e.x) === cx && Math.floor(e.z) === cy]. *)
Definition enemy_in (cx cy : Z) (e : Enemy.t) : bool :=
  inum_eqb (Math_floor (Enemy.x e)) (Fin cx)
  && inum_eqb (Math_floor (Enemy.z e)) (Fin cy).

Definition neighbors (cx cy : Z) : list pos :=
  [(cx + 1, cy); (cx - 1, cy); (cx, cy + 1); (cx, cy - 1)].

(** The body of [for (const [nx, ny] of neighbors)]. *)
Definition visit (GRID_SIZE : Z) (grid : list (list CELL_TYPE))
    (vq : list (list bool) * list pos) (n : pos) : list (list bool) * list pos :=
  let '(nx, ny) := n in
  if (0 <=? nx) && (nx <? GRID_SIZE) && (0 <=? ny) && (ny <? GRID_SIZE)
     && is_cell EMPTY (rd grid nx ny) && negb (seen vq.1 nx ny)
  then (wr vq.1 nx ny true, vq.2 ++ [n])
  else vq.

(** One iteration of [while (queue.length > 0)], on a non-empty queue. *)
Definition iter (GRID_SIZE : Z) (grid : list (list CELL_TYPE))
    (enemies : list Enemy.t) (c : pos) (q : list pos) (st : loop) : loop :=
  let '(cx, cy) := c in
  let vq := fold_left (visit GRID_SIZE grid) (neighbors cx cy) (visited st, q) in
  {| queue := vq.2;
     visited := vq.1;
     area := area st ++ [c];
     hasEnemy := if existsb (enemy_in cx cy) enemies then true else hasEnemy st |}.

(** The [while] loop; [fuel] bounds the number of iterations of the model
    (the loop state is returned whole, so that an exit with a non-empty queue
    would be visible). *)
Fixpoint bfs (fuel : nat) (GRID_SIZE : Z) (grid : list (list CELL_TYPE))
    (enemies : list Enemy.t) (st : loop) : loop :=
  match fuel with
  | O => st
  | S fuel' =>
      match queue st with
      | [] => st
      | c :: q => bfs fuel' GRID_SIZE grid enemies (iter GRID_SIZE grid enemies c q st)
      end
  end.

(** The body of the two [for] loops, with the fuel given to each search. *)
Definition scan (fuel : nat) (GRID_SIZE : Z) (grid : list (list CELL_TYPE))
    (enemies : list Enemy.t) (x y : Z)
    (va : list (list bool) * list (list pos)) : list (list bool) * list (list pos) :=
  if is_cell EMPTY (rd grid x y) && negb (seen va.1 x y) then
    let st := bfs fuel GRID_SIZE grid enemies
                {| queue := [(x, y)]; visited := wr va.1 x y true;
                   area := []; hasEnemy := false |} in
    (visited st, if hasEnemy st then va.2 else va.2 ++ [area st])
  else va.

Definition getFillableAreas_fuel (fuel : nat) (GRID_SIZE : Z)
    (grid : list (list CELL_TYPE)) (enemies : list Enemy.t) : list (list pos) :=
  let visited0 := replicate (Z.to_nat GRID_SIZE) (replicate (Z.to_nat GRID_SIZE) false) in
  (for_cells GRID_SIZE (scan fuel GRID_SIZE grid enemies) (visited0, [])).2.

(** A search dequeues every cell at most once, so [GRID_SIZE * GRID_SIZE]
    iterations are enough (shown with the correctness of the areas below). *)
Definition getFillableAreas (GRID_SIZE : Z) (grid : list (list CELL_TYPE))
    (enemies : list Enemy.t) : list (list pos) :=
  getFillableAreas_fuel (Z.to_nat (GRID_SIZE * GRID_SIZE)) GRID_SIZE grid enemies.

End FloodFill.

(** ** class Game *)

(** The calls to the audio object and to [showMessage], in the words of the
    specification: [playStart], [playTrailStep], [playCapture], [playDeath],
    [playWin] with its message, and the game-over message. *)
Inductive signal := Start | TrailStep | Capture | Death | LevelComplete | GameOver.

Global Instance signal_eq_dec : EqDecision signal.
Proof. solve_decision. Defined.

Inductive key := ArrowUp | ArrowDown | ArrowLeft | ArrowRight | OtherKey.

Module Game.

Record t := mk {
  level : Z;
  lives : Z;
  capturedPercent : inum;
  grid : list (list CELL_TYPE);
  enemies : list Enemy.t;
  trailCount : Z;
  drone : Drone.t;
  (** [document.getElementById('message').classList.contains('hidden')] *)
  messageHidden : bool;
  log : list signal
}.

Definition set_grid (g : list (list CELL_TYPE)) (s : t) : t :=
  {| level := level s; lives := lives s; capturedPercent := capturedPercent s;
     grid := g; enemies := enemies s; trailCount := trailCount s;
     drone := drone s; messageHidden := messageHidden s; log := log s |}.
Definition set_enemies (es : list Enemy.t) (s : t) : t :=
  {| level := level s; lives := lives s; capturedPercent := capturedPercent s;
     grid := grid s; enemies := es; trailCount := trailCount s;
     drone := drone s; messageHidden := messageHidden s; log := log s |}.
Definition set_trailCount (n : Z) (s : t) : t :=
  {| level := level s; lives := lives s; capturedPercent := capturedPercent s;
     grid := grid s; enemies := enemies s; trailCount := n;
     drone := drone s; messageHidden := messageHidden s; log := log s |}.
Definition set_drone (d : Drone.t) (s : t) : t :=
  {| level := level s; lives := lives s; capturedPercent := capturedPercent s;
     grid := grid s; enemies := enemies s; trailCount := trailCount s;
     drone := d; messageHidden := messageHidden s; log := log s |}.
Definition set_lives (n : Z) (s : t) : t :=
  {| level := level s; lives := n; capturedPercent := capturedPercent s;
     grid := grid s; enemies := enemies s; trailCount := trailCount s;
     drone := drone s; messageHidden := messageHidden s; log := log s |}.
Definition set_level (n : Z) (s : t) : t :=
  {| level := n; lives := lives s; capturedPercent := capturedPercent s;
     grid := grid s; enemies := enemies s; trailCount := trailCount s;
     drone := drone s; messageHidden := messageHidden s; log := log s |}.
Definition set_capturedPercent (p : inum) (s : t) : t :=
  {| level := level s; lives := lives s; capturedPercent := p;
     grid := grid s; enemies := enemies s; trailCount := trailCount s;
     drone := drone s; messageHidden := messageHidden s; log := log s |}.
Definition set_messageHidden (b : bool) (s : t) : t :=
  {| level := level s; lives := lives s; capturedPercent := capturedPercent s;
     grid := grid s; enemies := enemies s; trailCount := trailCount s;
     drone := drone s; messageHidden := b; log := log s |}.
(** An audio call or a message: appended to the log. *)
Definition emit (e : signal) (s : t) : t :=
  {| level := level s; lives := lives s; capturedPercent := capturedPercent s;
     grid := grid s; enemies := enemies s; trailCount := trailCount s;
     drone := drone s; messageHidden := messageHidden s; log := log s ++ [e] |}.

(** [showMessage]: the message box loses its class [hidden]. *)
Definition showMessage (e : signal) (s : t) : t :=
  set_messageHidden false (emit e s).

Definition initGrid (GRID_SIZE : Z) : list (list CELL_TYPE) :=
  for_cells GRID_SIZE
    (λ x y g, if (x <? 2) || (GRID_SIZE - 2 <=? x) || (y <? 2) || (GRID_SIZE - 2 <=? y)
              then wr g x y OCCUPIED else g)
    (replicate (Z.to_nat GRID_SIZE) (replicate (Z.to_nat GRID_SIZE) EMPTY)).

(** The count of the two loops of [calculateCaptured]. *)
Definition countOccupied (GRID_SIZE : Z) (g : list (list CELL_TYPE)) : Z :=
  for_cells GRID_SIZE
    (λ x y occupied, if is_cell OCCUPIED (rd g x y) then occupied + 1 else occupied) 0.

(** [Math.floor((occupied / (GRID_SIZE * GRID_SIZE)) * 100)]. *)
Definition percent (GRID_SIZE occupied : Z) : inum :=
  Math_floor ((num_of_Z occupied / (num_of_Z GRID_SIZE * num_of_Z GRID_SIZE)) * 100)%float.

Definition calculateCaptured (GRID_SIZE : Z) (s : t) : t :=
  let s := set_capturedPercent (percent GRID_SIZE (countOccupied GRID_SIZE (grid s))) s in
  if inum_geb (capturedPercent s) TARGET_PERCENT
  then showMessage LevelComplete s
  else s.

(** [fillAreas.forEach(area => area.forEach(([x, y]) => grid[y][x] = OCCUPIED))]. *)
Definition fill (areas : list (list pos)) (g : list (list CELL_TYPE)) : list (list CELL_TYPE) :=
  fold_left (λ g area, fold_left (λ g p, wr g p.1 p.2 OCCUPIED) area g) areas g.

Definition trailToLand (GRID_SIZE : Z) (g : list (list CELL_TYPE)) : list (list CELL_TYPE) :=
  for_cells GRID_SIZE
    (λ x y g, if is_cell TRAIL (rd g x y) then wr g x y OCCUPIED else g) g.

Definition handleCapture (GRID_SIZE : Z) (s : t) : t :=
  let s := emit Capture s in
  let fillAreas := FloodFill.getFillableAreas GRID_SIZE (grid s) (enemies s) in
  let s := set_grid (fill fillAreas (grid s)) s in
  let s := set_grid (trailToLand GRID_SIZE (grid s)) s in
  let s := set_trailCount 0 s in
  calculateCaptured GRID_SIZE s.

Definition clearTrail (GRID_SIZE : Z) (g : list (list CELL_TYPE)) : list (list CELL_TYPE) :=
  for_cells GRID_SIZE
    (λ x y g, if is_cell TRAIL (rd g x y) then wr g x y EMPTY else g) g.

Definition die (GRID_SIZE : Z) (s : t) : t :=
  let s := emit Death s in
  let s := set_lives (lives s - 1) s in
  let s := set_grid (clearTrail GRID_SIZE (grid s)) s in
  let s := set_trailCount 0 s in
  let s := set_drone (Drone.reset 1 1 (drone s)) s in
  if lives s <=? 0 then showMessage GameOver s else s.

(** The listener of [keydown]. *)
Definition keydown (k : key) (s : t) : t :=
  let d := drone s in
  match k with
  | ArrowUp => set_drone (Drone.set_v 0 (- Drone.speed d)%float d) s
  | ArrowDown => set_drone (Drone.set_v 0 (Drone.speed d) d) s
  | ArrowLeft => set_drone (Drone.set_v (- Drone.speed d)%float 0 d) s
  | ArrowRight => set_drone (Drone.set_v (Drone.speed d) 0 d) s
  | OtherKey => s
  end.

(** The part of [animate] that runs when the drone enters a new cell
    ([if (gx !== this.drone.lastX || gz !== this.drone.lastZ)]). *)
Definition enterCell (GRID_SIZE : Z) (s : t) : result t :=
  let gx := Math_floor (Drone.x (drone s)) in
  let gz := Math_floor (Drone.z (drone s)) in
  if negb (inum_eqb gx (Drone.lastX (drone s))) || negb (inum_eqb gz (Drone.lastZ (drone s)))
  then
    match get2 (grid s) gz gx with
    | None => Throw s
    | Some currentCell =>
        let s :=
          if is_cell EMPTY currentCell then
            emit TrailStep (set_trailCount (trailCount s + 1) (set_grid (set2 (grid s) gz gx TRAIL) s))
          else if is_cell OCCUPIED currentCell && (0 <? trailCount s) then
            handleCapture GRID_SIZE s
          else if is_cell TRAIL currentCell then
            die GRID_SIZE s
          else s in
        Ok (set_drone (Drone.set_last gx gz (drone s)) s)
    end
  else Ok s.

(** [dist < 0.8], with [d ** 2] computed as [d * d]. *)
Definition touches (e : Enemy.t) (d : Drone.t) : bool :=
  let dx := (Enemy.x e - Drone.x d)%float in
  let dz := (Enemy.z e - Drone.z d)%float in
  (sqrt (dx * dx + dz * dz) <? 0.8)%float.

(** The callback of [this.enemies.forEach], after [enemy.update]: the two
    collision tests of one enemy. *)
Definition collide (GRID_SIZE : Z) (e : Enemy.t) (s : t) : result t :=
  let s := if touches e (drone s) then die GRID_SIZE s else s in
  match get2 (grid s) (Math_floor (Enemy.z e)) (Math_floor (Enemy.x e)) with
  | None => Throw s
  | Some c => Ok (if is_cell TRAIL c then die GRID_SIZE s else s)
  end.

(** [this.enemies.forEach(...)]: the enemies are objects updated in place;
    [moved] are the enemies already visited. *)
Fixpoint forEachEnemy (GRID_SIZE : Z) (moved todo : list Enemy.t) (s : t) : result t :=
  match todo with
  | [] => Ok (set_enemies moved s)
  | e :: rest =>
      match Enemy.update GRID_SIZE (grid s) e with
      | Throw e' => Throw (set_enemies (moved ++ e' :: rest) s)
      | Ok e' =>
          match collide GRID_SIZE e' s with
          | Throw s' => Throw (set_enemies (moved ++ e' :: rest) s')
          | Ok s' => forEachEnemy GRID_SIZE (moved ++ [e']) rest s'
          end
      end
  end.

(** One frame. *)
Definition animate (GRID_SIZE : Z) (s : t) : result t :=
  if messageHidden s then
    let s := set_drone (Drone.update GRID_SIZE (drone s)) s in
    enterCell GRID_SIZE s >>= λ s,
    forEachEnemy GRID_SIZE [] (enemies s) s
  else Ok s.

Section Random.
(** [Math.cos], [Math.sin] and the successive values of [Math.random()]. *)
Variables (Math_cos Math_sin : float → float).

Definition Math_PI : float := 3.141592653589793.

(** [new Enemy(scene, x, z, type, speed)] with [r] the value of
    [Math.random()]. *)
Definition newEnemy (x z : float) (type : kind) (speed r : float) : Enemy.t :=
  let angle := (r * Math_PI * 2)%float in
  {| Enemy.x := x; Enemy.z := z; Enemy.type := type; Enemy.speed := speed;
     Enemy.vx := (Math_cos angle * speed)%float;
     Enemy.vz := (Math_sin angle * speed)%float |}.

(** The balls: [i] counts the calls of [Math.random()] made so far. *)
Fixpoint newBalls (GRID_SIZE : Z) (ballCount : nat) (ballSpeed : float)
    (random : nat → float) (i : nat) : list Enemy.t :=
  match ballCount with
  | S n =>
      let rx := (5 + random i * (num_of_Z GRID_SIZE - 10))%float in
      let rz := (5 + random (i + 1)%nat * (num_of_Z GRID_SIZE - 10))%float in
      newEnemy rx rz ball ballSpeed (random (i + 2)%nat)
      :: newBalls GRID_SIZE n ballSpeed random (i + 3)%nat
  | O => []
  end.

(** The mines: [k] is the loop counter. *)
Fixpoint newMines (GRID_SIZE : Z) (k : Z) (mineCount : nat) (ballSpeed : float)
    (random : nat → float) (i : nat) : list Enemy.t :=
  match mineCount with
  | S n =>
      let mx := if k =? 0 then (num_of_Z GRID_SIZE - 2)%float else 2%float in
      let mz := (num_of_Z GRID_SIZE - 2)%float in
      newEnemy mx mz mine ballSpeed (random i)
      :: newMines GRID_SIZE (k + 1) n ballSpeed random (i + 1)%nat
  | O => []
  end.

(** [startLevel(lvl)]; [random i] is the value of the [i]-th call of
    [Math.random()] in it. *)
Definition startLevel (GRID_SIZE : Z) (lvl : Z) (random : nat → float) (s : t) : t :=
  let ballCount := if lvl =? 2 then 3%nat else if lvl =? 3 then 5%nat else 2%nat in
  let mineCount := if lvl =? 2 then 1%nat else if lvl =? 3 then 2%nat else 0%nat in
  let ballSpeed := if lvl =? 2 then 0.08%float else if lvl =? 3 then 0.12%float else 0.05%float in
  let droneSpeed := if lvl =? 3 then 0.22%float else 0.15%float in
  let balls := newBalls GRID_SIZE ballCount ballSpeed random 0 in
  let mines := newMines GRID_SIZE 0 mineCount ballSpeed random (3 * ballCount) in
  calculateCaptured GRID_SIZE
    {| level := lvl; lives := lives s; capturedPercent := Fin 0;
       grid := initGrid GRID_SIZE; enemies := balls ++ mines; trailCount := 0;
       drone := Drone.set_speed droneSpeed (Drone.reset 1 1 (drone s));
       messageHidden := messageHidden s; log := log s ++ [Start] |}.

(** The [onclick] of the restart button. *)
Definition restart (GRID_SIZE : Z) (random : nat → float) (s : t) : t :=
  let s :=
    if inum_geb (capturedPercent s) TARGET_PERCENT then
      if level s <? 3 then startLevel GRID_SIZE (level s + 1) random s
      else startLevel GRID_SIZE 1 random (set_lives 3 s)
    else if lives s <=? 0 then startLevel GRID_SIZE 1 random (set_lives 3 s)
    else s in
  set_messageHidden true s.

(** The constructor, up to its first frame; [hidden] tells whether the
    page shows the message box at load. *)
Definition new (GRID_SIZE : Z) (random : nat → float) (hidden : bool) : result t :=
  animate GRID_SIZE
    (startLevel GRID_SIZE 1 random
       {| level := 1; lives := 3; capturedPercent := Fin 0;
          grid := initGrid GRID_SIZE; enemies := []; trailCount := 0;
          drone := Drone.reset 1 1 Drone.new;
          messageHidden := hidden; log := [] |}).

End Random.

End Game.

(** ** Notions used in the statements *)

(** A [GRID_SIZE] by [GRID_SIZE] array, as [initGrid] builds [this.grid] and
    [getFillableAreas] builds [visited]. *)
Definition square {A} (n : Z) (a : list (list A)) : Prop :=
  length a = Z.to_nat n ∧ Forall (λ row, length row = Z.to_nat n) a.

Definition in_grid (n : Z) (p : pos) : Prop :=
  0 ≤ p.1 < n ∧ 0 ≤ p.2 < n.

(** The cells in the order of the two nested [for] loops. *)
Definition cells (n : Z) : list pos :=
  y ← seqZ 0 n; x ← seqZ 0 n; [(x, y)].

Definition cell_is (g : list (list CELL_TYPE)) (c : CELL_TYPE) (p : pos) : Prop :=
  rd g p.1 p.2 = Some c.

(** The four neighbours of a cell. *)
Definition adjacent (p q : pos) : Prop :=
  q = (p.1 + 1, p.2) ∨ q = (p.1 - 1, p.2) ∨ q = (p.1, p.2 + 1) ∨ q = (p.1, p.2 - 1).

(** Two neighbouring EMPTY cells. *)
Definition link (g : list (list CELL_TYPE)) (p q : pos) : Prop :=
  cell_is g EMPTY p ∧ cell_is g EMPTY q ∧ adjacent p q.

(** 4-connected through EMPTY cells. *)
Definition connected (g : list (list CELL_TYPE)) : relation pos := rtc (link g).

(** Some enemy's floored position is the cell [p]. *)
Definition hostile_at (enemies : list Enemy.t) (p : pos) : Prop :=
  ∃ e, e ∈ enemies ∧ Math_floor (Enemy.x e) = Fin p.1 ∧ Math_floor (Enemy.z e) = Fin p.2.

(** A region free of enemies: an EMPTY cell from which no cell that holds an
    enemy can be reached. *)
Definition fillable (g : list (list CELL_TYPE)) (enemies : list Enemy.t) (p : pos) : Prop :=
  cell_is g EMPTY p ∧ ¬ ∃ q, connected g p q ∧ hostile_at enemies q.

(** Connected by steps between neighbours that stay inside the list [a]. *)
Definition connected_in (a : list pos) : relation pos :=
  rtc (λ p q, p ∈ a ∧ q ∈ a ∧ adjacent p q).

(** What the capture and the death do to one cell. *)
Definition land_of_trail (c : CELL_TYPE) : CELL_TYPE :=
  match c with TRAIL => OCCUPIED | _ => c end.

Definition clear_of_trail (c : CELL_TYPE) : CELL_TYPE :=
  match c with TRAIL => EMPTY | _ => c end.

(** The frame of [initGrid], two cells thick. *)
Definition on_border (N : Z) (x y : Z) : bool :=
  (x <? 2) || (N - 2 <=? x) || (y <? 2) || (N - 2 <=? y).

(** A sequence of inputs for the drone: before each frame the velocity is
    set (to any value; a frame without a key press sets it to what it was). *)
Definition drive (GRID_SIZE : Z) (inputs : list (float * float)) (d : Drone.t) : Drone.t :=
  fold_left (λ d v, Drone.update GRID_SIZE (Drone.set_v v.1 v.2 d)) inputs d.

(** ** The specification's reading of the motion rules *)

Module Spec.





(** The order of a tick in the specification: the motion of the drone and
    of all the enemies first, then the check of the drone's cell, then the
    collision checks of the enemies. *)
Fixpoint moveAll (GRID_SIZE : Z) (grid : list (list CELL_TYPE))
    (moved todo : list Enemy.t) : result (list Enemy.t) :=
  match todo with
  | [] => Ok moved
  | e :: rest =>
      match Enemy.update GRID_SIZE grid e with
      | Ok e' => moveAll GRID_SIZE grid (moved ++ [e']) rest
      | Throw e' => Throw (moved ++ e' :: rest)
      end
  end.

Fixpoint collideAll (GRID_SIZE : Z) (es : list Enemy.t) (s : Game.t) : result Game.t :=
  match es with
  | [] => Ok s
  | e :: rest => Game.collide GRID_SIZE e s >>= collideAll GRID_SIZE rest
  end.

Definition tick (GRID_SIZE : Z) (s : Game.t) : result Game.t :=
  if Game.messageHidden s then
    let s := Game.set_drone (Drone.update GRID_SIZE (Game.drone s)) s in
    match moveAll GRID_SIZE (Game.grid s) [] (Game.enemies s) with
    | Throw es => Throw (Game.set_enemies es s)
    | Ok es =>
        Game.enterCell GRID_SIZE (Game.set_enemies es s) >>= collideAll GRID_SIZE es
    end
  else Ok s.

End Spec.

(** ** The states of a run *)

(** The states that a run with grid side [GRID_SIZE] goes through: a level is
    started (from any earlier state: the constructor, a restart, a change of
    the grid size), then frames, key presses and clicks on the restart button
    follow. A frame that throws leaves the state it had reached. *)
Inductive reachable (Math_cos Math_sin : float → float) (GRID_SIZE : Z) : Game.t → Prop :=
  | reach_start lvl random s0 :
      reachable Math_cos Math_sin GRID_SIZE
        (Game.startLevel Math_cos Math_sin GRID_SIZE lvl random s0)
  | reach_frame s :
      reachable Math_cos Math_sin GRID_SIZE s →
      reachable Math_cos Math_sin GRID_SIZE (state_of (Game.animate GRID_SIZE s))
  | reach_key k s :
      reachable Math_cos Math_sin GRID_SIZE s →
      reachable Math_cos Math_sin GRID_SIZE (Game.keydown k s)
  | reach_restart random s :
      reachable Math_cos Math_sin GRID_SIZE s →
      reachable Math_cos Math_sin GRID_SIZE
        (Game.restart Math_cos Math_sin GRID_SIZE random s).

(** ** Invariants *)

(** The invariant of the [while] loop of a search: [v0] is [visited] before
    the region's first cell [seed] is marked. Every cell of [area] and
    [queue] is an EMPTY cell of the region of [seed], marked in this search
    and met once; the EMPTY neighbours of the cells of [area] are marked;
    [hasEnemy] tells whether a cell of [area] holds an enemy. *)
Definition search_invariant (N : Z) (grid : list (list CELL_TYPE)) (enemies : list Enemy.t)
    (v0 : list (list bool)) (seed : pos) (st : FloodFill.loop) : Prop :=
  square N (FloodFill.visited st) ∧
  (∀ p, FloodFill.seen (FloodFill.visited st) p.1 p.2 = true
        ↔ FloodFill.seen v0 p.1 p.2 = true ∨ p ∈ FloodFill.area st ++ FloodFill.queue st) ∧
  NoDup (FloodFill.area st ++ FloodFill.queue st) ∧
  (∀ p, p ∈ FloodFill.area st ++ FloodFill.queue st →
        cell_is grid EMPTY p ∧ ¬ FloodFill.seen v0 p.1 p.2 = true ∧ connected grid seed p) ∧
  (∀ p q, p ∈ FloodFill.area st → link grid p q →
          FloodFill.seen (FloodFill.visited st) q.1 q.2 = true) ∧
  (FloodFill.hasEnemy st = true ↔ ∃ p, p ∈ FloodFill.area st ∧ hostile_at enemies p) ∧
  seed ∈ FloodFill.area st ++ FloodFill.queue st.

(** The invariant of the two [for] loops: [done] are the cells scanned so
    far, [va] the array [visited] and the list [areas]. The marked cells are
    whole regions of EMPTY cells, among them every EMPTY cell scanned; the
    areas are the marked regions without enemy, each listed once. *)
Definition scan_invariant (N : Z) (grid : list (list CELL_TYPE)) (enemies : list Enemy.t)
    (done : list pos) (va : list (list bool) * list (list pos)) : Prop :=
  square N va.1 ∧
  (∀ p, FloodFill.seen va.1 p.1 p.2 = true → cell_is grid EMPTY p) ∧
  (∀ p q, FloodFill.seen va.1 p.1 p.2 = true → link grid p q →
          FloodFill.seen va.1 q.1 q.2 = true) ∧
  (∀ p, p ∈ done → cell_is grid EMPTY p → FloodFill.seen va.1 p.1 p.2 = true) ∧
  (∀ p, p ∈ concat va.2 ↔ FloodFill.seen va.1 p.1 p.2 = true
                          ∧ ¬ ∃ q, connected grid p q ∧ hostile_at enemies q) ∧
  (∀ a p, a ∈ va.2 → p ∈ a → ∀ q, q ∈ a ↔ connected grid p q) ∧
  NoDup (concat va.2).

(** What a step of the engine may do to a grid: the result is square, and an
    OCCUPIED cell stays OCCUPIED. *)
Definition grid_step (N : Z) (g g' : list (list CELL_TYPE)) : Prop :=
  square N g'
  ∧ ∀ x y c, rd g x y = Some c →
      match c with
      | OCCUPIED => rd g' x y = Some OCCUPIED
      | _ => is_Some (rd g' x y)
      end.

(** A square grid with its border OCCUPIED. *)
Definition bordered (N : Z) (g : list (list CELL_TYPE)) : Prop :=
  square N g
  ∧ ∀ x y, in_grid N (x, y) → on_border N x y = true → rd g x y = Some OCCUPIED.

(** Since [s0] nothing was stored in the percentage and LevelComplete was not
    emitted. *)
Definition quiet_since (s0 s : Game.t) : Prop :=
  Game.capturedPercent s = Game.capturedPercent s0
  ∧ ∃ sigs, Game.log s = Game.log s0 ++ sigs ∧ LevelComplete ∉ sigs.

(** ** Example states *)

(** A 10 by 10 grid in which a trail runs down column 4 and cuts the EMPTY
    interior in two. *)
Definition trail_grid : list (list CELL_TYPE) :=
  let O := OCCUPIED in let E := EMPTY in let T := TRAIL in
  [ [O; O; O; O; O; O; O; O; O; O];
    [O; O; O; O; O; O; O; O; O; O];
    [O; O; E; E; T; E; E; E; O; O];
    [O; O; E; E; T; E; E; E; O; O];
    [O; O; E; E; T; E; E; E; O; O];
    [O; O; E; E; T; E; E; E; O; O];
    [O; O; E; E; T; E; E; E; O; O];
    [O; O; E; E; T; E; E; E; O; O];
    [O; O; O; O; O; O; O; O; O; O];
    [O; O; O; O; O; O; O; O; O; O] ].

(** The drone is about to leave the trail for the land below it; a ball of
    the left part is about to cross into column 4. *)
Definition trail_state : Game.t :=
  {| Game.level := 2; Game.lives := 3; Game.capturedPercent := Fin 64;
     Game.grid := trail_grid;
     Game.enemies :=
       [ {| Enemy.x := 3.95; Enemy.z := 2.5; Enemy.type := ball; Enemy.speed := 0.08;
            Enemy.vx := 0.08; Enemy.vz := 0 |} ];
     Game.trailCount := 6;
     Game.drone := {| Drone.x := 4.5; Drone.z := 7.9; Drone.vx := 0; Drone.vz := 0.15;
                      Drone.lastX := Fin 4; Drone.lastZ := Fin 7; Drone.speed := 0.15 |};
     Game.messageHidden := true; Game.log := [Start] |}.

(** A new game before the enemies of the level are created: no trail, no
    enemy (the specification's scenario of a grid without hostile entities). *)
Definition fresh_state : Game.t :=
  {| Game.level := 1; Game.lives := 3; Game.capturedPercent := Fin 64;
     Game.grid := Game.initGrid 10; Game.enemies := []; Game.trailCount := 0;
     Game.drone := Drone.reset 1 1 Drone.new;
     Game.messageHidden := true; Game.log := [] |}.

(** A level that has just started on a grid of side 10, with one ball in the
    EMPTY interior. *)
Definition guarded_state : Game.t :=
  {| Game.level := 1; Game.lives := 3; Game.capturedPercent := Fin 64;
     Game.grid := Game.initGrid 10;
     Game.enemies :=
       [ {| Enemy.x := 5.5; Enemy.z := 5.5; Enemy.type := ball; Enemy.speed := 0.05;
            Enemy.vx := 0.03; Enemy.vz := 0.04 |} ];
     Game.trailCount := 0;
     Game.drone := Drone.reset 1 1 Drone.new;
     Game.messageHidden := true; Game.log := [Start] |}.

(** The default grid of side 50 after the drone has captured rows 2 to 8 and
    the 19 open cells on the right of row 9: 725 OCCUPIED cells of 2500. *)
Definition grid_725 : list (list CELL_TYPE) :=
  let full := replicate 50 OCCUPIED in
  let open := [OCCUPIED; OCCUPIED] ++ replicate 46 EMPTY ++ [OCCUPIED; OCCUPIED] in
  let part := [OCCUPIED; OCCUPIED] ++ replicate 27 EMPTY ++ replicate 21 OCCUPIED in
  replicate 9 full ++ [part] ++ replicate 38 open ++ replicate 2 full.

(** That grid in play, two balls in the open part. *)
Definition state_725 : Game.t :=
  {| Game.level := 1; Game.lives := 3; Game.capturedPercent := Fin 28;
     Game.grid := grid_725;
     Game.enemies :=
       [ {| Enemy.x := 25.5; Enemy.z := 30.5; Enemy.type := ball; Enemy.speed := 0.05;
            Enemy.vx := 0.03; Enemy.vz := 0.04 |};
         {| Enemy.x := 10.25; Enemy.z := 20.75; Enemy.type := ball; Enemy.speed := 0.05;
            Enemy.vx := -0.04; Enemy.vz := 0.03 |} ];
     Game.trailCount := 0;
     Game.drone := {| Drone.x := 29.5; Drone.z := 8.5; Drone.vx := 0; Drone.vz := -0.15;
                      Drone.lastX := Fin 29; Drone.lastZ := Fin 8; Drone.speed := 0.15 |};
     Game.messageHidden := true; Game.log := [Start] |}.

(** The percentage that [calculateCaptured] computes is the exact one or one
    below it, and reaches the target exactly when the exact one does. *)
Definition percent_close (GRID_SIZE occupied : Z) : bool :=
  let exact := occupied * 100 / (GRID_SIZE * GRID_SIZE) in
  match Game.percent GRID_SIZE occupied with
  | Fin p => ((p =? exact) || (p =? exact - 1)) && (0 <=? p) && (p <=? 100)
             && bool_decide ((TARGET_PERCENT <=? p) = (TARGET_PERCENT <=? exact))
  | _ => false
  end.

(** A ball next to the land on the right of the grid, flying right and down. *)
Definition ball_at_shore : Enemy.t :=
  {| Enemy.x := 7.97; Enemy.z := 5.5; Enemy.type := ball; Enemy.speed := 0.07;
     Enemy.vx := 0.05; Enemy.vz := 0.05 |}.

(** [n] frames in a row. *)
Definition frames (GRID_SIZE : Z) (n : nat) (s : Game.t) : Game.t :=
  Nat.iter n (λ s, state_of (Game.animate GRID_SIZE s)) s.

(** A game played from the keyboard: each key is pressed and followed by a
    number of frames. *)
Definition play (GRID_SIZE : Z) (script : list (key * nat)) (s : Game.t) : Game.t :=
  fold_left (λ s kn, frames GRID_SIZE kn.2 (Game.keydown kn.1 s)) script s.

(** Level 1 on the default grid as [startLevel] leaves it, its two balls of
    speed 0.05 flying almost along the rows. *)
Definition level1_state : Game.t :=
  {| Game.level := 1; Game.lives := 3; Game.capturedPercent := Fin 15;
     Game.grid := Game.initGrid 50;
     Game.enemies :=
       [ {| Enemy.x := 25.5; Enemy.z := 30.5; Enemy.type := ball; Enemy.speed := 0.05;
            Enemy.vx := 0.0499975; Enemy.vz := 0.0005 |};
         {| Enemy.x := 10.25; Enemy.z := 20.75; Enemy.type := ball; Enemy.speed := 0.05;
            Enemy.vx := -0.0499991; Enemy.vz := 0.0003 |} ];
     Game.trailCount := 0;
     Game.drone := Drone.set_speed 0.15 (Drone.reset 1 1 Drone.new);
     Game.messageHidden := true; Game.log := [Start] |}.

(** The drone sweeps rows 2 to 8 from border to border, then 19 cells of
    row 9 from the right, and turns back up to the land. *)
Definition sweep_rows : list (key * nat) :=
  [(ArrowDown, 7); (ArrowRight, 314);
   (ArrowDown, 7); (ArrowLeft, 308);
   (ArrowDown, 7); (ArrowRight, 308);
   (ArrowDown, 7); (ArrowLeft, 308);
   (ArrowDown, 7); (ArrowRight, 308);
   (ArrowDown, 7); (ArrowLeft, 308);
   (ArrowDown, 7); (ArrowRight, 308);
   (ArrowDown, 7); (ArrowLeft, 121); (ArrowUp, 3)]%nat.

(** * Proofs *)

(** ** Two-dimensional arrays *)

Section Arrays.
Context {A : Type}.
Implicit Types (a : list (list A)) (n x y : Z) (v : A).

Lemma rd_Some_in_grid n a x y v :
  square n a → rd a x y = Some v → in_grid n (x, y).
Proof.
  intros [Hl Hr]. unfold rd, in_grid. simpl.
  destruct (0 <=? x) eqn:Hx; [|done]. destruct (0 <=? y) eqn:Hy; [|done]. simpl.
  destruct (a !! Z.to_nat y) as [row|] eqn:Hrow; [|done]. simpl. intros Hv.
  apply lookup_lt_Some in Hv. pose proof (lookup_lt_Some _ _ _ Hrow) as Hy'.
  rewrite Forall_forall in Hr. rewrite (Hr row) in Hv
    by (apply list_elem_of_lookup; eauto).
  lia.
Qed.

Lemma rd_is_Some n a x y :
  square n a → in_grid n (x, y) → is_Some (rd a x y).
Proof.
  intros [Hl Hr] [Hx Hy]. simpl in *. unfold rd.
  replace (0 <=? x) with true by lia. replace (0 <=? y) with true by lia. simpl.
  destruct (lookup_lt_is_Some_2 a (Z.to_nat y)) as [row Hrow]; [lia|].
  rewrite Hrow. simpl. apply lookup_lt_is_Some_2.
  rewrite Forall_forall in Hr. rewrite (Hr row) by (apply list_elem_of_lookup; eauto).
  lia.
Qed.

Lemma square_wr n a x y v : square n a → square n (wr a x y v).
Proof.
  intros [Hl Hr]. split; unfold wr.
  - by rewrite length_alter.
  - rewrite Forall_forall in *. intros row Hin.
    apply list_elem_of_lookup in Hin as [i Hi].
    destruct (decide (i = Z.to_nat y)) as [->|Hne].
    + rewrite list_lookup_alter in Hi. rewrite decide_True in Hi by done.
      destruct (a !! Z.to_nat y) as [row'|] eqn:Hrow; simplify_eq/=.
      rewrite length_insert. apply Hr. apply list_elem_of_lookup; eauto.
    + rewrite list_lookup_alter_ne in Hi by done.
      apply Hr. apply list_elem_of_lookup; eauto.
Qed.

Lemma rd_wr n a x y v x' y' :
  square n a → in_grid n (x, y) →
  rd (wr a x y v) x' y' = if decide ((x', y') = (x, y)) then Some v else rd a x' y'.
Proof.
  intros Hsq [Hx Hy]. simpl in *.
  destruct (rd_is_Some n a x y Hsq) as [v0 Hv0]; [done|].
  destruct Hsq as [Hl Hr].
  unfold rd, wr in *.
  replace (0 <=? x) with true in Hv0 by lia. replace (0 <=? y) with true in Hv0 by lia.
  simpl in Hv0.
  destruct (a !! Z.to_nat y) as [row|] eqn:Hrow; [|done]. simpl in Hv0.
  case_decide as Heq.
  - simplify_eq. replace (0 <=? x) with true by lia. replace (0 <=? y) with true by lia.
    simpl. rewrite list_lookup_alter, decide_True by done. rewrite Hrow. simpl.
    apply list_lookup_insert_eq. by eapply lookup_lt_Some.
  - destruct (0 <=? x') eqn:Hx'; [|done]. destruct (0 <=? y') eqn:Hy'; [|done]. simpl.
    destruct (decide (Z.to_nat y = Z.to_nat y')) as [Hyy|Hyy].
    + rewrite <- Hyy. rewrite list_lookup_alter, decide_True by done. rewrite Hrow. simpl.
      apply list_lookup_insert_ne. intros Hxx.
      apply Heq. f_equal; lia.
    + by rewrite list_lookup_alter_ne.
Qed.

Lemma square_replicate n v : square n (replicate (Z.to_nat n) (replicate (Z.to_nat n) v)).
Proof.
  split; [by rewrite length_replicate|].
  apply Forall_forall. intros row Hin. apply elem_of_replicate in Hin as [-> _].
  by rewrite length_replicate.
Qed.

Lemma rd_replicate n v x y :
  in_grid n (x, y) → rd (replicate (Z.to_nat n) (replicate (Z.to_nat n) v)) x y = Some v.
Proof.
  intros [Hx Hy]. simpl in *. unfold rd.
  replace (0 <=? x) with true by lia. replace (0 <=? y) with true by lia. simpl.
  rewrite lookup_replicate_2 by lia. simpl. apply lookup_replicate_2. lia.
Qed.
End Arrays.

(** ** The two nested loops as one pass over [cells] *)

Lemma for_cells_cells {S} n (body : Z → Z → S → S) s :
  for_cells n body s = fold_left (λ s p, body p.1 p.2 s) (cells n) s.
Proof.
  unfold for_cells, cells.
  assert (∀ (xs ys : list Z) s,
    fold_left (λ s y, fold_left (λ s x, body x y s) xs s) ys s
    = fold_left (λ s p, body p.1 p.2 s) (ys ≫= λ y, xs ≫= λ x, [(x, y)]) s) as Hgen;
    [|apply Hgen].
  intros xs ys. induction ys as [|y ys IH]; intros s'; [done|].
  simpl. rewrite fold_left_app, <- IH. f_equal.
  clear IH. revert s'. induction xs as [|x xs IHx]; intros s'; [done|]. simpl. apply IHx.
Qed.

Lemma elem_of_cells n p : p ∈ cells n ↔ in_grid n p.
Proof.
  unfold cells, in_grid. destruct p as [x y]. simpl.
  rewrite list_elem_of_bind. split.
  - intros (y' & Hin & Hy). apply list_elem_of_bind in Hin as (x' & Hin & Hx).
    apply list_elem_of_singleton in Hin. simplify_eq.
    apply elem_of_seqZ in Hx, Hy. lia.
  - intros [Hx Hy]. exists y. split; [|apply elem_of_seqZ; lia].
    apply list_elem_of_bind. exists x. split; [by apply list_elem_of_singleton|].
    apply elem_of_seqZ; lia.
Qed.

Lemma NoDup_cells n : NoDup (cells n).
Proof.
  unfold cells. apply NoDup_bind.
  - intros y1 y2 p _ _ Hp1 Hp2.
    apply list_elem_of_bind in Hp1 as (x1 & H1 & _), Hp2 as (x2 & H2 & _).
    apply list_elem_of_singleton in H1, H2. congruence.
  - intros y _. apply NoDup_bind.
    + intros x1 x2 p _ _ H1 H2. apply list_elem_of_singleton in H1, H2. congruence.
    + intros. apply NoDup_singleton.
    + apply NoDup_seqZ.
  - apply NoDup_seqZ.
Qed.

Lemma length_cells n : (length (cells n) ≤ Z.to_nat (n * n))%nat.
Proof.
  assert (length (cells n) = (Z.to_nat n * Z.to_nat n)%nat) as ->.
  { unfold cells. rewrite <- (length_seqZ 0 n).
    assert (∀ xs ys : list Z,
      length (ys ≫= λ y, xs ≫= λ x, [(x, y)]) = (length ys * length xs)%nat) as Hgen;
      [|apply Hgen].
    intros xs ys. induction ys as [|y ys IH]; [done|].
    csimpl. rewrite length_app, IH. f_equal.
    clear IH. induction xs as [|x xs IHx]; csimpl; [done|]. by rewrite IHx. }
  destruct (decide (0 ≤ n)); [rewrite Z2Nat.inj_mul by lia; lia|].
  replace (Z.to_nat n) with 0%nat by lia. lia.
Qed.

(** Distinct cells of the grid are at most [GRID_SIZE * GRID_SIZE]. *)
Lemma length_in_grid n (l : list pos) :
  NoDup l → (∀ p, p ∈ l → in_grid n p) → (length l ≤ Z.to_nat (n * n))%nat.
Proof.
  intros Hnd Hin. etrans; [|apply length_cells].
  apply submseteq_length, NoDup_submseteq; [done|].
  intros p Hp. by apply elem_of_cells, Hin.
Qed.

(** A loop invariant indexed by the cells already visited. *)
Lemma fold_left_prefix_ind {S B} (I : list B → S → Prop) (f : S → B → S) l s :
  I [] s →
  (∀ pre x post s, l = pre ++ x :: post → I pre s → I (pre ++ [x]) (f s x)) →
  I l (fold_left f l s).
Proof.
  intros H0 Hstep.
  assert (∀ post pre s, l = pre ++ post → I pre s → I l (fold_left f post s)) as Hgen.
  { induction post as [|x post IH]; intros pre s' Hl Hpre.
    - rewrite app_nil_r in Hl. by subst.
    - simpl. apply (IH (pre ++ [x])); [by rewrite <- app_assoc|]. by eapply Hstep. }
  by apply (Hgen l []).
Qed.

(** ** Connectivity *)

Lemma adjacent_sym p q : adjacent p q → adjacent q p.
Proof.
  destruct p as [px py], q as [qx qy]. unfold adjacent. simpl.
  intros [H|[H|[H|H]]]; simplify_eq; [right; left|left|do 3 right|right; right; left];
    f_equal; lia.
Qed.

Lemma link_sym g p q : link g p q → link g q p.
Proof. intros (?&?&?). split_and!; [done..|by apply adjacent_sym]. Qed.

Lemma connected_sym g p q : connected g p q → connected g q p.
Proof.
  induction 1 as [|p q r Hpq _ IH]; [apply rtc_refl|].
  eapply rtc_r; [exact IH|by apply link_sym].
Qed.

Lemma connected_trans g p q r : connected g p q → connected g q r → connected g p r.
Proof. apply rtc_trans. Qed.

Lemma elem_of_neighbors p q : q ∈ FloodFill.neighbors p.1 p.2 ↔ adjacent p q.
Proof.
  unfold FloodFill.neighbors, adjacent.
  rewrite !elem_of_cons, elem_of_nil. tauto.
Qed.

Lemma is_cell_true c v : is_cell c v = true ↔ v = Some c.
Proof. unfold is_cell. apply bool_decide_eq_true. Qed.


Lemma inum_eqb_Fin a k : inum_eqb a (Fin k) = true ↔ a = Fin k.
Proof.
  destruct a; simpl; try (split; [done|discriminate]).
  rewrite Z.eqb_eq. split; congruence.
Qed.

Lemma existsb_enemy_in enemies p :
  existsb (FloodFill.enemy_in p.1 p.2) enemies = true ↔ hostile_at enemies p.
Proof.
  unfold hostile_at. rewrite existsb_exists. setoid_rewrite <- list_elem_of_In.
  unfold FloodFill.enemy_in. setoid_rewrite andb_true_iff.
  by setoid_rewrite inum_eqb_Fin.
Qed.

(** A path that starts in a set closed under [link] stays in it. *)
Lemma connected_closed g (P : pos → Prop) p q :
  (∀ u w, P u → link g u w → P w) → connected g p q → P p → P q.
Proof. intros Hcl. induction 1; eauto. Qed.

(** ** The search of one region *)

Section Search.
Variables (N : Z) (grid : list (list CELL_TYPE)) (enemies : list Enemy.t).
Hypothesis grid_square : square N grid.

Local Abbreviation seenp v p := (FloodFill.seen v p.1 p.2 = true).

Lemma seen_wr v p q :
  square N v → in_grid N p →
  seenp (wr v p.1 p.2 true) q ↔ q = p ∨ seenp v q.
Proof.
  intros Hv Hp. unfold FloodFill.seen. destruct p as [x y], q as [x' y'].
  rewrite (rd_wr N) by done. simpl. case_decide; simplify_eq/=.
  - split; [by left|done].
  - split; [by right|]. by intros [?|?]; [simplify_eq|].
Qed.

Lemma empty_in_grid p : cell_is grid EMPTY p → in_grid N p.
Proof. destruct p. apply rd_Some_in_grid, grid_square. Qed.

(** The loop over the neighbours. *)
Lemma visit_fold ns v q :
  square N v →
  let vq := fold_left (FloodFill.visit N grid) ns (v, q) in
  square N vq.1 ∧
  ∃ new, vq.2 = q ++ new ∧ NoDup new ∧
    (∀ p, seenp vq.1 p ↔ seenp v p ∨ p ∈ new) ∧
    (∀ p, p ∈ new → p ∈ ns ∧ cell_is grid EMPTY p ∧ ¬ seenp v p) ∧
    (∀ n, n ∈ ns → cell_is grid EMPTY n → seenp vq.1 n).
Proof.
  revert v q. induction ns as [|n ns IH]; intros v q Hv; simpl.
  { split; [done|]. exists []. rewrite app_nil_r. split_and!; try done.
    - apply NoDup_nil_2.
    - intros p. rewrite elem_of_nil. tauto.
    - intros p []%elem_of_nil.
    - intros p []%elem_of_nil. }
  destruct n as [nx ny]. unfold FloodFill.visit at 2. simpl.
  destruct ((0 <=? nx) && (nx <? N) && (0 <=? ny) && (ny <? N)
            && is_cell EMPTY (rd grid nx ny) && negb (FloodFill.seen v nx ny)) eqn:Hc.
  - repeat (apply andb_true_iff in Hc as [Hc ?]).
    assert (in_grid N (nx, ny)) as Hin by (unfold in_grid; simpl; lia).
    assert (cell_is grid EMPTY (nx, ny)) as He by (by apply is_cell_true).
    assert (¬ seenp v (nx, ny)) as Hns by (simpl; by destruct (FloodFill.seen v nx ny)).
    destruct (IH (wr v nx ny true) (q ++ [(nx, ny)])) as (Hsq & new & Hq & Hnd & Hseen & Hnew & Hns');
      [by apply square_wr|].
    split; [done|]. exists ((nx, ny) :: new). split_and!.
    + by rewrite Hq, <- app_assoc.
    + apply NoDup_cons. split; [|done]. intros Hin'.
      apply Hnew in Hin' as (_ & _ & Hn). apply Hn.
      apply (seen_wr v (nx, ny)); auto.
    + intros p. rewrite Hseen, (seen_wr v (nx, ny)), elem_of_cons by done. tauto.
    + intros p [->|Hp]%elem_of_cons.
      * split_and!; [left|done..].
      * apply Hnew in Hp as (? & ? & Hn). split_and!; [by right|done|].
        intros Hs. apply Hn. apply (seen_wr v (nx, ny)); auto.
    + intros n [->|Hn]%elem_of_cons He'; [|by apply Hns'].
      apply Hseen. left. apply (seen_wr v (nx, ny)); auto.
  - destruct (IH v q Hv) as (Hsq & new & Hq & Hnd & Hseen & Hnew & Hns').
    split; [done|]. exists new. split_and!; try done.
    + intros p Hp. apply Hnew in Hp as (? & ? & ?). split_and!; [by right|done..].
    + intros n [->|Hn]%elem_of_cons He'; [|by apply Hns'].
      apply Hseen. left.
      pose proof (empty_in_grid _ He') as [? ?]. simpl in *.
      unfold cell_is in He'. simpl in He'.
      rewrite He' in Hc. rewrite (proj2 (is_cell_true EMPTY (Some EMPTY))) in Hc by done.
      replace (0 <=? nx) with true in Hc by lia. replace (nx <? N) with true in Hc by lia.
      replace (0 <=? ny) with true in Hc by lia. replace (ny <? N) with true in Hc by lia.
      simpl in Hc. by destruct (FloodFill.seen v nx ny).
Qed.

(** [v0] is [visited] before the region's first cell [seed] is marked. *)
Variables (v0 : list (list bool)) (seed : pos).

Local Abbreviation search_inv st := (search_invariant N grid enemies v0 seed st).

Lemma iter_inv st c q :
  search_inv st → FloodFill.queue st = c :: q →
  search_inv (FloodFill.iter N grid enemies c q st)
  ∧ length (FloodFill.area (FloodFill.iter N grid enemies c q st))
    = S (length (FloodFill.area st)).
Proof.
  intros (Hsq & Hseen & Hnd & Hel & Hcl & Hhe & Hseed) Hq.
  rewrite Hq in *. unfold FloodFill.iter. destruct c as [cx cy].
  destruct (visit_fold (FloodFill.neighbors cx cy) (FloodFill.visited st) q Hsq)
    as (Hsq' & new & Hq' & Hnd' & Hseen' & Hnew & Hns).
  simpl in *. split; [|rewrite length_app; simpl; lia].
  unfold search_inv. simpl. rewrite Hq'.
  assert (∀ p, p ∈ (FloodFill.area st ++ [(cx, cy)]) ++ q ++ new
               ↔ p ∈ FloodFill.area st ++ (cx, cy) :: q ∨ p ∈ new) as Hmem.
  { intros p. rewrite !elem_of_app, !elem_of_cons, elem_of_nil. tauto. }
  destruct (Hel (cx, cy)) as (Hce & Hcv & Hcc);
    [rewrite elem_of_app, elem_of_cons; auto|].
  split_and!.
  - done.
  - intros p. rewrite Hseen', Hseen, Hmem. tauto.
  - rewrite <- app_assoc. simpl. rewrite app_comm_cons, app_assoc.
    apply NoDup_app. split_and!; [done| |done].
    intros p Hp Hp'. apply Hnew in Hp' as (_ & _ & Hn). apply Hn, Hseen. by right.
  - intros p [Hp|Hp]%Hmem; [by apply Hel|].
    apply Hnew in Hp as (Hadj & He & Hn). split_and!; [done| |].
    + intros Hs. apply Hn, Hseen. by left.
    + eapply rtc_r; [exact Hcc|]. split_and!; [done..|].
      by apply (elem_of_neighbors (cx, cy)).
  - intros p r [Hp|Hp]%elem_of_app Hl.
    + apply Hseen'. left. by eapply Hcl.
    + apply list_elem_of_singleton in Hp as ->. destruct Hl as (_ & He & Hadj).
      apply Hns; [|done]. by apply (elem_of_neighbors (cx, cy)).
  - destruct (existsb (FloodFill.enemy_in cx cy) enemies) eqn:Hex.
    + split; [|done]. intros _. exists (cx, cy).
      split; [apply elem_of_app; right; by apply list_elem_of_singleton|].
      by apply existsb_enemy_in.
    + rewrite Hhe. split.
      * intros (p & Hp & Hh). exists p. split; [apply elem_of_app; by left|done].
      * intros (p & [Hp|Hp]%elem_of_app & Hh); [by exists p|].
        apply list_elem_of_singleton in Hp as ->.
        apply (existsb_enemy_in enemies (cx, cy)) in Hh. simpl in Hh. congruence.
  - apply Hmem. by left.
Qed.

(** With [GRID_SIZE * GRID_SIZE] iterations left for the cells not yet in
    [area], the loop runs until the queue is empty. *)
Lemma bfs_inv fuel st :
  search_inv st →
  (Z.to_nat (N * N) ≤ length (FloodFill.area st) + fuel)%nat →
  search_inv (FloodFill.bfs fuel N grid enemies st)
  ∧ FloodFill.queue (FloodFill.bfs fuel N grid enemies st) = [].
Proof.
  revert st. induction fuel as [|fuel IH]; intros st Hinv Hfuel; simpl.
  - split; [done|].
    destruct Hinv as (_ & _ & Hnd & Hel & _).
    assert (length (FloodFill.area st ++ FloodFill.queue st) ≤ Z.to_nat (N * N))%nat as Hlen.
    { apply length_in_grid; [done|]. intros p Hp. apply empty_in_grid. by apply Hel. }
    rewrite length_app in Hlen. apply nil_length_inv. lia.
  - destruct (FloodFill.queue st) as [|c q] eqn:Hq; [done|].
    destruct (iter_inv st c q Hinv Hq) as [Hinv' Hlen].
    apply IH; [done|]. lia.
Qed.

(** More fuel changes nothing once the queue is empty. *)
Lemma bfs_more_fuel fuel k st :
  FloodFill.queue (FloodFill.bfs fuel N grid enemies st) = [] →
  FloodFill.bfs (fuel + k) N grid enemies st = FloodFill.bfs fuel N grid enemies st.
Proof.
  revert st. induction fuel as [|fuel IH]; intros st; simpl.
  - intros Hq. destruct k; simpl; [done|]. by rewrite Hq.
  - destruct (FloodFill.queue st); [done|]. apply IH.
Qed.

(** When the loop ends, [area] is the region of [seed]. *)
Lemma search_area st :
  search_inv st → FloodFill.queue st = [] →
  (∀ p q, seenp v0 p → link grid p q → seenp v0 q) →
  ∀ p, p ∈ FloodFill.area st ↔ connected grid seed p.
Proof.
  intros (Hsq & Hseen & Hnd & Hel & Hcl & Hhe & Hseed) Hq Hv0 p.
  rewrite Hq, app_nil_r in Hseen, Hel, Hseed. split; [intros Hp; by apply Hel|].
  intros Hc. eapply (connected_closed grid (λ p, p ∈ FloodFill.area st)); [|exact Hc|done].
  intros u w Hu Hl. pose proof (Hcl u w Hu Hl) as Hw.
  apply Hseen in Hw as [Hw|Hw]; [|done].
  exfalso. apply (Hel u Hu). eapply Hv0; [exact Hw|by apply link_sym].
Qed.

End Search.

(** ** The scan of the grid *)

Lemma elem_of_concat {A} (l : list (list A)) x :
  x ∈ concat l ↔ ∃ a, a ∈ l ∧ x ∈ a.
Proof.
  induction l as [|c l IH]; simpl.
  - rewrite elem_of_nil. split; [done|]. by intros (a & []%elem_of_nil & _).
  - rewrite elem_of_app, IH. split.
    + intros [Hx|(a & Ha & Hx)]; [exists c|exists a]; split; try done; [by left|by right].
    + intros (a & [->|Ha]%elem_of_cons & Hx); [by left|right; by exists a].
Qed.

Lemma concat_disjoint {A} (l : list (list A)) i j a b x :
  NoDup (concat l) → l !! i = Some a → l !! j = Some b → i ≠ j → x ∈ a → x ∉ b.
Proof.
  revert i j. induction l as [|c l IH]; intros i j Hnd Hi Hj Hne Ha Hb; [done|].
  simpl in Hnd. apply NoDup_app in Hnd as (_ & Hdis & Hnd).
  destruct i as [|i], j as [|j]; simplify_eq/=.
  - apply (Hdis x Ha). apply elem_of_concat. exists b.
    split; [|done]. by eapply list_elem_of_lookup_2.
  - apply (Hdis x Hb). apply elem_of_concat. exists a.
    split; [|done]. by eapply list_elem_of_lookup_2.
  - eapply (IH i j); eauto.
Qed.

Lemma connected_connected_in g a p q :
  connected g p q → p ∈ a → (∀ r, connected g p r → r ∈ a) → connected_in a p q.
Proof.
  induction 1 as [p|p p1 q Hl Hc IH]; intros Hp Ha; [apply rtc_refl|].
  assert (p1 ∈ a) as Hp1 by (apply Ha; by apply rtc_once).
  eapply rtc_l.
  - split_and!; [done..|]. apply Hl.
  - apply IH; [done|]. intros r Hr. apply Ha. eapply rtc_l; eauto.
Qed.

Section Scan.
Variables (N : Z) (grid : list (list CELL_TYPE)) (enemies : list Enemy.t).
Hypothesis grid_square : square N grid.

Local Abbreviation seenp v p := (FloodFill.seen v p.1 p.2 = true).
Local Abbreviation no_enemy p := (¬ ∃ q, connected grid p q ∧ hostile_at enemies q).

Local Abbreviation scan_inv done va := (scan_invariant N grid enemies done va).

Lemma scan_step done va x y k :
  scan_inv done va → in_grid N (x, y) →
  scan_inv (done ++ [(x, y)]) (FloodFill.scan (Z.to_nat (N * N)) N grid enemies x y va)
  ∧ FloodFill.scan (Z.to_nat (N * N) + k) N grid enemies x y va
    = FloodFill.scan (Z.to_nat (N * N)) N grid enemies x y va.
Proof.
  intros (Hsq & Hem & Hcl & Hdone & Hcat & Hcomp & Hnd) Hin.
  destruct va as [v areas]. simpl in *. unfold FloodFill.scan. simpl.
  destruct (is_cell EMPTY (rd grid x y) && negb (FloodFill.seen v x y)) eqn:Hc.
  - apply andb_true_iff in Hc as [He Hns]. apply is_cell_true in He.
    assert (¬ seenp v (x, y)) as Hns' by (simpl; by destruct (FloodFill.seen v x y)).
    set (st0 := {| FloodFill.queue := [(x, y)]; FloodFill.visited := wr v x y true;
                   FloodFill.area := []; FloodFill.hasEnemy := false |}).
    assert (search_invariant N grid enemies v (x, y) st0) as Hinv0.
    { unfold search_invariant. simpl. split_and!.
      - by apply square_wr.
      - intros p. rewrite (seen_wr N v (x, y)), list_elem_of_singleton by done. tauto.
      - apply NoDup_singleton.
      - intros p Hp. apply list_elem_of_singleton in Hp as ->.
        split_and!; [done..|apply rtc_refl].
      - intros p q []%elem_of_nil.
      - split; [done|]. by intros (p & []%elem_of_nil & _).
      - by apply list_elem_of_singleton. }
    destruct (bfs_inv N grid enemies grid_square v (x, y) (Z.to_nat (N * N)) st0 Hinv0)
      as [Hinv Hq]; [simpl; lia|].
    rewrite (bfs_more_fuel N grid enemies _ k st0 Hq). split; [|done].
    pose proof (search_area N grid enemies v (x, y) _ Hinv Hq Hcl) as Harea.
    set (st := FloodFill.bfs (Z.to_nat (N * N)) N grid enemies st0) in *.
    destruct Hinv as (Hsq' & Hseen & Hnd' & Hel & _ & Hhe & _).
    rewrite Hq, app_nil_r in Hseen, Hnd', Hel.
    assert (∀ p, seenp (FloodFill.visited st) p ↔ seenp v p ∨ connected grid (x, y) p) as F1.
    { intros p. by rewrite Hseen, Harea. }
    assert (FloodFill.hasEnemy st = true
            ↔ ∃ p, connected grid (x, y) p ∧ hostile_at enemies p) as F2.
    { rewrite Hhe. by setoid_rewrite Harea. }
    assert (∀ p, connected grid (x, y) p → cell_is grid EMPTY p ∧ ¬ seenp v p) as F3.
    { intros p Hp%Harea. split; by apply Hel. }
    clear Hseen Hhe Hel.
    unfold scan_invariant. simpl. split_and!.
    + done.
    + intros p [Hp|Hp]%F1; [by apply Hem|by apply F3].
    + intros p q [Hp|Hp]%F1 Hl; apply F1; [left; by eapply Hcl|right; by eapply rtc_r].
    + intros p [Hp|Hp]%elem_of_app Hpe; apply F1; [left; by apply Hdone|].
      apply list_elem_of_singleton in Hp as ->. right. apply rtc_refl.
    + intros p. destruct (FloodFill.hasEnemy st) eqn:Hh.
      * rewrite Hcat, F1. split; [tauto|]. intros [[Hp|Hp] Hno]; [done|].
        exfalso. destruct (proj1 F2 eq_refl) as (h & Hch & Hh').
        apply Hno. exists h. split; [|done].
        eapply connected_trans; [apply connected_sym, Hp|done].
      * rewrite concat_app, elem_of_app. simpl. rewrite app_nil_r, Hcat, F1, Harea.
        split; [|tauto]. intros [[? ?]|Hp]; [tauto|]. split; [by right|].
        intros (q & Hpq & Hq'). assert (false = true) as Hf; [|done].
        apply F2. exists q. split; [|done]. by eapply connected_trans.
    + intros a p Ha Hp q. destruct (FloodFill.hasEnemy st); [by apply Hcomp|].
      apply elem_of_app in Ha as [Ha|Ha]; [by apply Hcomp|].
      apply list_elem_of_singleton in Ha as ->.
      apply Harea in Hp. rewrite Harea. split; intros Hq'.
      * eapply connected_trans; [apply connected_sym, Hp|done].
      * by eapply connected_trans.
    + destruct (FloodFill.hasEnemy st); [done|].
      rewrite concat_app. simpl. rewrite app_nil_r.
      apply NoDup_app. split_and!; [done| |done].
      intros p Hp Hp'. apply Hcat in Hp as [Hp _]. apply Harea in Hp'.
      by apply (F3 p).
  - split; [|done]. unfold scan_invariant. simpl. split_and!; try done.
    intros p [Hp|Hp]%elem_of_app Hpe; [by apply Hdone|].
    apply list_elem_of_singleton in Hp as ->. simpl. unfold cell_is in Hpe. simpl in Hpe. rewrite Hpe in Hc.
    rewrite (proj2 (is_cell_true EMPTY (Some EMPTY))) in Hc by done. simpl in Hc.
    by destruct (FloodFill.seen v x y).
Qed.

Lemma scan_all k :
  let va := for_cells N (FloodFill.scan (Z.to_nat (N * N)) N grid enemies)
              (replicate (Z.to_nat N) (replicate (Z.to_nat N) false), []) in
  scan_inv (cells N) va
  ∧ for_cells N (FloodFill.scan (Z.to_nat (N * N) + k) N grid enemies)
      (replicate (Z.to_nat N) (replicate (Z.to_nat N) false), []) = va.
Proof.
  simpl. rewrite !for_cells_cells.
  set (init := (replicate (Z.to_nat N) (replicate (Z.to_nat N) false), @nil (list pos))).
  apply (fold_left_prefix_ind
    (λ pre va, scan_inv pre va
       ∧ fold_left (λ s p, FloodFill.scan (Z.to_nat (N * N) + k) N grid enemies p.1 p.2 s)
           pre init = va)).
  - split; [|done]. unfold scan_invariant, init. simpl.
    assert (∀ p, ¬ seenp (replicate (Z.to_nat N) (replicate (Z.to_nat N) false)) p) as Hno.
    { intros [x y]. unfold FloodFill.seen. simpl.
      destruct (rd _ x y) as [b|] eqn:Hb; [|done].
      pose proof (rd_Some_in_grid N _ x y b (square_replicate N false) Hb) as Hin.
      rewrite (rd_replicate N false x y Hin) in Hb. by simplify_eq. }
    split_and!.
    + apply square_replicate.
    + intros p Hp. by apply Hno in Hp.
    + intros p q Hp. by apply Hno in Hp.
    + intros p []%elem_of_nil.
    + intros p. split; [by intros []%elem_of_nil|]. intros [Hp _]. by apply Hno in Hp.
    + intros a p []%elem_of_nil.
    + apply NoDup_nil_2.
  - intros pre [x y] post va Hcells [Hinv Heq].
    assert (in_grid N (x, y)) as Hin.
    { apply elem_of_cells. rewrite Hcells. apply elem_of_app. right. by left. }
    destruct (scan_step pre va x y k Hinv Hin) as [Hinv' Hk].
    split; [done|]. rewrite fold_left_app. simpl. by rewrite Heq.
Qed.

End Scan.

(** The cells of the returned areas are the cells of the regions free of
    enemies. *)
Lemma getFillableAreas_fillable (GRID_SIZE : Z) (grid : list (list CELL_TYPE))
    (enemies : list Enemy.t) :
  square GRID_SIZE grid →
  ∀ p, p ∈ concat (FloodFill.getFillableAreas GRID_SIZE grid enemies)
       ↔ fillable grid enemies p.
Proof.
  intros Hsq p. unfold FloodFill.getFillableAreas, FloodFill.getFillableAreas_fuel.
  pose proof (scan_all GRID_SIZE grid enemies Hsq 0) as Hall. simpl in Hall.
  destruct Hall as [(Hsqv & Hem & Hcl & Hdone & Hcat & Hcomp & Hnd) _].
  rewrite Hcat. unfold fillable. split; intros [Hp Hno]; (split; [|done]).
  - by apply Hem.
  - apply Hdone; [|done]. apply elem_of_cells. destruct p as [x y].
    apply (rd_Some_in_grid GRID_SIZE grid x y EMPTY Hsq Hp).
Qed.

(** C1. Region solver: the cells of the returned areas are exactly the EMPTY
    cells that are not 4-connected (through EMPTY cells) to a cell that holds
    the floored position of an enemy; every returned area is 4-connected
    inside itself; two areas of the result share no cell. The searches end
    with an empty queue within [GRID_SIZE * GRID_SIZE] iterations: more fuel
    gives the same areas. *)
Theorem getFillableAreas_correct (GRID_SIZE : Z) (grid : list (list CELL_TYPE))
    (enemies : list Enemy.t) :
  square GRID_SIZE grid →
  let areas := FloodFill.getFillableAreas GRID_SIZE grid enemies in
  (∀ p, p ∈ concat areas ↔ fillable grid enemies p)
  ∧ (∀ a p q, a ∈ areas → p ∈ a → q ∈ a → connected_in a p q)
  ∧ (∀ i j a b p, areas !! i = Some a → areas !! j = Some b → i ≠ j → p ∈ a → p ∉ b)
  ∧ (∀ k, FloodFill.getFillableAreas_fuel (Z.to_nat (GRID_SIZE * GRID_SIZE) + k)
            GRID_SIZE grid enemies = areas).
Proof.
  intros Hsq. simpl. unfold FloodFill.getFillableAreas, FloodFill.getFillableAreas_fuel.
  pose proof (scan_all GRID_SIZE grid enemies Hsq) as Hall. simpl in Hall.
  destruct (Hall 0%nat) as [(Hsqv & Hem & Hcl & Hdone & Hcat & Hcomp & Hnd) _].
  split_and!.
  - by apply getFillableAreas_fillable.
  - intros a p q Ha Hp Hq. apply (connected_connected_in grid); [|done|].
    + by apply (Hcomp a p).
    + intros r Hr. by apply (Hcomp a p).
  - intros i j a b p. by apply concat_disjoint.
  - intros k. destruct (Hall k) as [_ Hk]. by rewrite Hk.
Qed.

(** ** Loops that rewrite the grid cell by cell *)

Lemma for_cells_pointwise {A} N (body : Z → Z → list (list A) → list (list A))
    (F : Z → Z → A → A) (g : list (list A)) :
  square N g →
  (∀ g' x y c, rd g' x y = Some c →
     body x y g' = wr g' x y (F x y c) ∨ (body x y g' = g' ∧ F x y c = c)) →
  square N (for_cells N body g)
  ∧ ∀ x y, rd (for_cells N body g) x y = F x y <$> rd g x y.
Proof.
  intros Hsq Hbody. rewrite for_cells_cells.
  assert (square N (fold_left (λ s p, body p.1 p.2 s) (cells N) g)
    ∧ ∀ p, rd (fold_left (λ s p, body p.1 p.2 s) (cells N) g) p.1 p.2
           = if decide (p ∈ cells N) then F p.1 p.2 <$> rd g p.1 p.2 else rd g p.1 p.2)
    as [Hsq' Hrd].
  { pose (I := λ (pre : list pos) (g' : list (list A)),
      square N g' ∧ ∀ p : pos, rd g' p.1 p.2
        = if decide (p ∈ pre) then F p.1 p.2 <$> rd g p.1 p.2 else rd g p.1 p.2).
    apply (fold_left_prefix_ind I); unfold I; clear I.
    - split; [done|]. intros p. rewrite decide_False; [done|apply not_elem_of_nil].
    - intros pre [x y] post g' Hcells [Hsqg Hpre]. simpl.
      assert (in_grid N (x, y)) as Hin.
      { apply elem_of_cells. rewrite Hcells. apply elem_of_app. right. by left. }
      assert ((x, y) ∉ pre) as Hfresh.
      { pose proof (NoDup_cells N) as Hnd. rewrite Hcells in Hnd.
        apply NoDup_app in Hnd as (_ & Hdis & _). intros Hp. apply (Hdis _ Hp). by left. }
      destruct (rd_is_Some N g x y Hsq Hin) as [c Hc].
      assert (∀ x y, rd g' x y = if decide ((x, y) ∈ pre)
                                 then F x y <$> rd g x y else rd g x y) as Hpre'.
      { intros x0 y0. apply (Hpre (x0, y0)). }
      pose proof (Hpre' x y) as Hxy.
      rewrite decide_False, Hc in Hxy by done.
      destruct (Hbody g' x y c Hxy) as [Hb|[Hb HF]]; rewrite Hb.
      + split; [by apply square_wr|]. intros [x' y']. simpl.
        rewrite (rd_wr N) by done. case_decide as Heq.
        * simplify_eq. rewrite decide_True, Hc; [done|].
          apply elem_of_app. right. by left.
        * rewrite Hpre'.
          destruct (decide ((x', y') ∈ pre)) as [Hp|Hp].
          -- rewrite decide_True; [done|]. apply elem_of_app. by left.
          -- rewrite decide_False; [done|]. intros [?|Hx]%elem_of_app; [done|].
             apply list_elem_of_singleton in Hx. done.
      + split; [done|]. intros [x' y']. simpl. rewrite Hpre'.
        destruct (decide ((x', y') ∈ pre)) as [Hp|Hp].
        * rewrite decide_True; [done|]. apply elem_of_app. by left.
        * destruct (decide ((x', y') = (x, y))) as [Heq|Hne].
          -- simplify_eq. rewrite decide_True, Hc; [simpl; by rewrite HF|].
             apply elem_of_app. right. by left.
          -- rewrite decide_False; [done|]. intros [?|Hx]%elem_of_app; [done|].
             apply list_elem_of_singleton in Hx. done. }
  split; [done|]. intros x y. pose proof (Hrd (x, y)) as Hxy. simpl in Hxy.
  rewrite Hxy. case_decide as Hin; [done|].
  destruct (rd g x y) as [c|] eqn:Hc; [|done].
  exfalso. apply Hin, elem_of_cells. by eapply rd_Some_in_grid.
Qed.

(** A loop that writes nothing returns the array itself. *)
Lemma for_cells_id {S} N (body : Z → Z → S → S) (P : S → Prop) s :
  P s → (∀ x y s, P s → body x y s = s) → for_cells N body s = s.
Proof.
  intros Hs Hbody. rewrite for_cells_cells.
  induction (cells N) as [|p l IH]; [done|]. simpl. by rewrite Hbody.
Qed.

Lemma trailToLand_rd N g :
  square N g →
  square N (Game.trailToLand N g)
  ∧ ∀ x y, rd (Game.trailToLand N g) x y = land_of_trail <$> rd g x y.
Proof.
  intros Hsq. apply (for_cells_pointwise N _ (λ _ _, land_of_trail)); [done|].
  intros g' x y c Hc. rewrite Hc.
  destruct c; [right|right|left]; done.
Qed.

Lemma clearTrail_rd N g :
  square N g →
  square N (Game.clearTrail N g)
  ∧ ∀ x y, rd (Game.clearTrail N g) x y = clear_of_trail <$> rd g x y.
Proof.
  intros Hsq. apply (for_cells_pointwise N _ (λ _ _, clear_of_trail)); [done|].
  intros g' x y c Hc. rewrite Hc.
  destruct c; [right|right|left]; done.
Qed.

Lemma initGrid_rd N :
  square N (Game.initGrid N)
  ∧ ∀ x y, in_grid N (x, y) →
      rd (Game.initGrid N) x y = Some (if on_border N x y then OCCUPIED else EMPTY).
Proof.
  destruct (for_cells_pointwise N
    (λ x y g, if (x <? 2) || (N - 2 <=? x) || (y <? 2) || (N - 2 <=? y)
              then wr g x y OCCUPIED else g)
    (λ x y c, if on_border N x y then OCCUPIED else c)
    (replicate (Z.to_nat N) (replicate (Z.to_nat N) EMPTY))) as [Hsq Hrd].
  - apply square_replicate.
  - intros g' x y c Hc. unfold on_border.
    destruct ((x <? 2) || (N - 2 <=? x) || (y <? 2) || (N - 2 <=? y)); [by left|by right].
  - split; [done|]. intros x y Hin. unfold Game.initGrid. rewrite Hrd.
    by rewrite rd_replicate.
Qed.

Lemma fill_rd N areas g :
  square N g → (∀ p, p ∈ concat areas → in_grid N p) →
  square N (Game.fill areas g)
  ∧ ∀ x y, rd (Game.fill areas g) x y
           = if decide ((x, y) ∈ concat areas) then Some OCCUPIED else rd g x y.
Proof.
  unfold Game.fill.
  assert (∀ (l : list pos) g, square N g → (∀ p, p ∈ l → in_grid N p) →
    square N (fold_left (λ g p, wr g p.1 p.2 OCCUPIED) l g)
    ∧ ∀ x y, rd (fold_left (λ g p, wr g p.1 p.2 OCCUPIED) l g) x y
             = if decide ((x, y) ∈ l) then Some OCCUPIED else rd g x y) as Hflat.
  { clear. induction l as [|[px py] l IH]; intros g Hsq Hin; cbn [fold_left].
    - split; [done|]. intros x y. case_decide as H; [by apply elem_of_nil in H|done].
    - cbn [fst snd]. destruct (IH (wr g px py OCCUPIED)) as [Hsq' Hrd].
      + by apply square_wr.
      + intros p Hp. apply Hin. by right.
      + split; [done|]. intros x y. rewrite Hrd.
        rewrite (rd_wr N) by (try done; apply Hin; by left).
        destruct (decide ((x, y) ∈ l)) as [Hl|Hl].
        * rewrite decide_True; [done|by right].
        * case_decide as Heq.
          -- rewrite decide_True; [done|]. rewrite Heq. by left.
          -- rewrite decide_False; [done|]. intros [?|?]%elem_of_cons; done. }
  revert g. induction areas as [|a areas IH]; intros g Hsq Hin; cbn [fold_left concat].
  - split; [done|]. intros x y. case_decide as H; [by apply elem_of_nil in H|done].
  - destruct (Hflat a g Hsq) as [Hsqa Hrda].
    { intros p Hp. apply Hin. simpl. apply elem_of_app. by left. }
    destruct (IH (fold_left (λ g p, wr g p.1 p.2 OCCUPIED) a g) Hsqa) as [Hsq' Hrd].
    { intros p Hp. apply Hin. simpl. apply elem_of_app. by right. }
    split; [done|]. intros x y. rewrite Hrd, Hrda.
    destruct (decide ((x, y) ∈ concat areas)) as [Hl|Hl].
    + rewrite decide_True; [done|]. apply elem_of_app. by right.
    + destruct (decide ((x, y) ∈ a)) as [Ha|Ha].
      * rewrite decide_True; [done|]. apply elem_of_app. by left.
      * rewrite decide_False; [done|]. intros [?|?]%elem_of_app; done.
Qed.

Lemma fill_nil areas g : concat areas = [] → Game.fill areas g = g.
Proof.
  unfold Game.fill. revert g. induction areas as [|a areas IH]; intros g Hc; [done|].
  simpl in *. apply app_eq_nil in Hc as [-> Hc]. simpl. by apply IH.
Qed.

(** ** Reading the grid at floored positions *)

Lemma get2_rd {A} (a : list (list A)) (i j : inum) (c : A) :
  get2 a i j = Some (Some c) →
  ∃ x y, i = Fin y ∧ j = Fin x ∧ rd a x y = Some c.
Proof.
  unfold get2, index. destruct i as [y| | |]; try done.
  destruct (0 <=? y) eqn:Hy; [|done]. simpl.
  destruct (a !! Z.to_nat y) as [row|] eqn:Hrow; [|done].
  destruct j as [x| | |]; try done.
  destruct (0 <=? x) eqn:Hx; [|done]. simpl. intros Hc.
  exists x, y. split_and!; [done..|]. unfold rd. rewrite Hx, Hy. simpl.
  rewrite Hrow. simpl. by simplify_eq.
Qed.

Lemma rd_get2 {A} (a : list (list A)) (x y : Z) (c : A) :
  rd a x y = Some c → get2 a (Fin y) (Fin x) = Some (Some c).
Proof.
  unfold rd, get2, index.
  destruct (0 <=? x) eqn:Hx; [|done]. destruct (0 <=? y) eqn:Hy; [|done]. simpl.
  destruct (a !! Z.to_nat y) as [row|]; [|done]. simpl. by intros ->.
Qed.


Lemma set2_wr {A} (a : list (list A)) (x y : Z) (v c : A) :
  rd a x y = Some c → set2 a (Fin y) (Fin x) v = wr a x y v.
Proof.
  unfold rd, set2, wr, index.
  destruct (0 <=? x) eqn:Hx; [|done]. by destruct (0 <=? y) eqn:Hy.
Qed.

(** ** The death event *)

Lemma die_eq N s :
  Game.die N s =
  {| Game.level := Game.level s; Game.lives := Game.lives s - 1;
     Game.capturedPercent := Game.capturedPercent s;
     Game.grid := Game.clearTrail N (Game.grid s);
     Game.enemies := Game.enemies s; Game.trailCount := 0;
     Game.drone := Drone.reset 1 1 (Game.drone s);
     Game.messageHidden := if Game.lives s - 1 <=? 0 then false else Game.messageHidden s;
     Game.log := Game.log s ++ Death :: (if Game.lives s - 1 <=? 0 then [GameOver] else []) |}.
Proof.
  unfold Game.die. simpl. destruct (Game.lives s - 1 <=? 0); simpl; [|done].
  unfold Game.showMessage, Game.set_messageHidden, Game.emit. simpl.
  by rewrite <- app_assoc.
Qed.

Lemma die_no_trail N s x y :
  square N (Game.grid s) → rd (Game.grid (Game.die N s)) x y ≠ Some TRAIL.
Proof.
  intros Hsq. rewrite die_eq. simpl.
  destruct (clearTrail_rd N (Game.grid s) Hsq) as [_ Hrd]. rewrite Hrd.
  by destruct (rd (Game.grid s) x y) as [[]|].
Qed.

Lemma collide_touching N e s :
  square N (Game.grid s) → Game.touches e (Game.drone s) = true →
  Game.collide N e s = Ok (Game.die N s) ∨ Game.collide N e s = Throw (Game.die N s).
Proof.
  intros Hsq Ht. unfold Game.collide. rewrite Ht.
  destruct (get2 _ _ _) as [c|] eqn:Hc; [left|by right].
  destruct (is_cell TRAIL c) eqn:Htr; [|done].
  apply is_cell_true in Htr as ->. apply get2_rd in Hc as (x & y & _ & _ & Hrd).
  by apply die_no_trail in Hrd.
Qed.

(** C4. Death event: each of the three triggers (the drone enters a TRAIL
    cell, an enemy is within the contact radius, an enemy's cell is TRAIL)
    runs [die] once; [die] emits one Death signal, takes one life, turns
    every TRAIL cell to EMPTY and changes no other cell, sets the trail
    counter to 0 and puts the drone on (1, 1). *)
Theorem death_event (GRID_SIZE : Z) (s : Game.t) :
  square GRID_SIZE (Game.grid s) →
  let s' := Game.die GRID_SIZE s in
  (** the effect of [die] *)
  ((∃ rest, Game.log s' = Game.log s ++ Death :: rest ∧ Death ∉ rest)
   ∧ Game.lives s' = Game.lives s - 1
   ∧ (∀ x y, rd (Game.grid s') x y = clear_of_trail <$> rd (Game.grid s) x y)
   ∧ (∀ p, ¬ cell_is (Game.grid s') TRAIL p)
   ∧ Game.trailCount s' = 0
   ∧ Drone.x (Game.drone s') = 1%float ∧ Drone.z (Game.drone s') = 1%float)
  (** the drone enters a TRAIL cell *)
  ∧ (let gx := Math_floor (Drone.x (Game.drone s)) in
     let gz := Math_floor (Drone.z (Game.drone s)) in
     negb (inum_eqb gx (Drone.lastX (Game.drone s)))
       || negb (inum_eqb gz (Drone.lastZ (Game.drone s))) = true →
     get2 (Game.grid s) gz gx = Some (Some TRAIL) →
     Game.enterCell GRID_SIZE s
     = Ok (Game.set_drone (Drone.set_last gx gz (Game.drone s')) s'))
  (** an enemy within the contact radius *)
  ∧ (∀ e, Game.touches e (Game.drone s) = true →
          Game.collide GRID_SIZE e s = Ok s' ∨ Game.collide GRID_SIZE e s = Throw s')
  (** an enemy on the trail *)
  ∧ (∀ e, Game.touches e (Game.drone s) = false →
          get2 (Game.grid s) (Math_floor (Enemy.z e)) (Math_floor (Enemy.x e))
          = Some (Some TRAIL) →
          Game.collide GRID_SIZE e s = Ok s').
Proof.
  intros Hsq. simpl. split_and!.
  - rewrite die_eq. simpl. eexists. split; [done|].
    destruct (Game.lives s - 1 <=? 0).
    + by intros ?%list_elem_of_singleton.
    + apply not_elem_of_nil.
  - by rewrite die_eq.
  - rewrite die_eq. simpl. apply clearTrail_rd, Hsq.
  - intros [x y]. by apply die_no_trail.
  - by rewrite die_eq.
  - by rewrite die_eq.
  - by rewrite die_eq.
  - intros Hnew Hcell. unfold Game.enterCell. by rewrite Hnew, Hcell.
  - intros e. by apply collide_touching.
  - intros e Ht Hcell. unfold Game.collide. by rewrite Ht, Hcell.
Qed.

(** C5, as the code has it. The death event resets the drone's velocity:
    [die] calls [reset(1, 1)], which sets [vx] and [vz] to 0, so the drone
    stays on (1, 1) in the next frames until a key is pressed. *)
Theorem die_resets_velocity (GRID_SIZE : Z) (s : Game.t) :
  let d := Game.drone (Game.die GRID_SIZE s) in
  Drone.vx d = 0%float ∧ Drone.vz d = 0%float
  ∧ Drone.x d = 1%float ∧ Drone.z d = 1%float
  ∧ Drone.update GRID_SIZE d = d.
Proof.
  rewrite die_eq. simpl. split_and!; try done.
  unfold Drone.update, Drone.reset. simpl.
  change (1 + 0)%float with 1%float.
  by destruct (Drone.inside GRID_SIZE 1 1).
Qed.

(** ** The capture event *)

Lemma calculateCaptured_eq N s :
  Game.calculateCaptured N s =
  let p := Game.percent N (Game.countOccupied N (Game.grid s)) in
  {| Game.level := Game.level s; Game.lives := Game.lives s;
     Game.capturedPercent := p;
     Game.grid := Game.grid s; Game.enemies := Game.enemies s;
     Game.trailCount := Game.trailCount s; Game.drone := Game.drone s;
     Game.messageHidden := if inum_geb p TARGET_PERCENT then false else Game.messageHidden s;
     Game.log := Game.log s ++ (if inum_geb p TARGET_PERCENT then [LevelComplete] else []) |}.
Proof.
  unfold Game.calculateCaptured. simpl.
  destruct (inum_geb _ TARGET_PERCENT); simpl; [done|].
  rewrite app_nil_r. by destruct s.
Qed.

Lemma handleCapture_eq N s :
  Game.handleCapture N s =
  let areas := FloodFill.getFillableAreas N (Game.grid s) (Game.enemies s) in
  let g := Game.trailToLand N (Game.fill areas (Game.grid s)) in
  let p := Game.percent N (Game.countOccupied N g) in
  {| Game.level := Game.level s; Game.lives := Game.lives s;
     Game.capturedPercent := p;
     Game.grid := g; Game.enemies := Game.enemies s;
     Game.trailCount := 0; Game.drone := Game.drone s;
     Game.messageHidden := if inum_geb p TARGET_PERCENT then false else Game.messageHidden s;
     Game.log := Game.log s ++ Capture :: (if inum_geb p TARGET_PERCENT then [LevelComplete] else []) |}.
Proof.
  unfold Game.handleCapture. rewrite calculateCaptured_eq. simpl.
  by rewrite <- app_assoc.
Qed.

(** The grid after a capture, cell by cell. *)
Lemma capture_grid N grid enemies :
  square N grid →
  let areas := FloodFill.getFillableAreas N grid enemies in
  let g := Game.trailToLand N (Game.fill areas grid) in
  square N g
  ∧ ∀ x y, rd g x y
           = (λ c, if decide ((x, y) ∈ concat areas) then OCCUPIED else land_of_trail c)
             <$> rd grid x y.
Proof.
  intros Hsq. simpl.
  pose proof (getFillableAreas_fillable N grid enemies Hsq) as Hfill.
  destruct (fill_rd N (FloodFill.getFillableAreas N grid enemies) grid Hsq) as [Hsq1 Hrd1].
  { intros [x y] Hp. apply Hfill in Hp as [Hp _]. by eapply rd_Some_in_grid. }
  destruct (trailToLand_rd N _ Hsq1) as [Hsq2 Hrd2].
  split; [done|]. intros x y. rewrite Hrd2, Hrd1.
  case_decide as Hin; [|done].
  apply Hfill in Hin as [Hin _]. unfold cell_is in Hin. simpl in Hin. by rewrite Hin.
Qed.


Lemma rd_elem_of {A} (a : list (list A)) x y c : rd a x y = Some c → c ∈ concat a.
Proof.
  unfold rd. destruct ((0 <=? x) && (0 <=? y)); [|done].
  destruct (a !! Z.to_nat y) as [row|] eqn:Hrow; [|done]. simpl. intros Hc.
  apply elem_of_concat. exists row. split; by eapply list_elem_of_lookup_2.
Qed.

(** C3, as the code has it. Capture without trail: when no cell of the grid
    is TRAIL and no EMPTY cell lies in a region free of enemies (the region
    solver returns no cell), [handleCapture] leaves the grid as it is and
    sets the trail counter to 0, and the captured percentage keeps its value
    if that was the percentage of the grid. *)
Theorem capture_without_trail (GRID_SIZE : Z) (s : Game.t) :
  square GRID_SIZE (Game.grid s) →
  TRAIL ∉ concat (Game.grid s) →
  (∀ p, ¬ fillable (Game.grid s) (Game.enemies s) p) →
  Game.capturedPercent s
  = Game.percent GRID_SIZE (Game.countOccupied GRID_SIZE (Game.grid s)) →
  let s' := Game.handleCapture GRID_SIZE s in
  Game.grid s' = Game.grid s
  ∧ Game.capturedPercent s' = Game.capturedPercent s
  ∧ Game.trailCount s' = 0.
Proof.
  intros Hsq Hnotrail Hhost Hpct. simpl. rewrite handleCapture_eq. simpl.
  pose proof (getFillableAreas_fillable GRID_SIZE (Game.grid s) (Game.enemies s) Hsq)
    as Hfill.
  assert (concat (FloodFill.getFillableAreas GRID_SIZE (Game.grid s) (Game.enemies s)) = [])
    as Hnil.
  { apply elem_of_nil_inv. intros p Hp. by apply Hfill, Hhost in Hp. }
  rewrite (fill_nil _ _ Hnil).
  assert (Game.trailToLand GRID_SIZE (Game.grid s) = Game.grid s) as ->.
  { apply (for_cells_id GRID_SIZE _ (λ g, g = Game.grid s)); [done|].
    intros x y g ->. destruct (is_cell TRAIL (rd (Game.grid s) x y)) eqn:Ht; [|done].
    apply is_cell_true in Ht. by apply rd_elem_of in Ht. }
  by rewrite Hpct.
Qed.

(** ** The motion of an enemy *)






(** ** The motion of the drone *)

Lemma update_inside N d :
  Drone.inside N (Drone.x d) (Drone.z d) = true →
  Drone.inside N (Drone.x (Drone.update N d)) (Drone.z (Drone.update N d)) = true.
Proof.
  intros Hin. unfold Drone.update.
  by destruct (Drone.inside N (Drone.x d + Drone.vx d) (Drone.z d + Drone.vz d)) eqn:Hn.
Qed.

Lemma drive_inside N inputs d :
  Drone.inside N (Drone.x d) (Drone.z d) = true →
  Drone.inside N (Drone.x (drive N inputs d)) (Drone.z (drive N inputs d)) = true.
Proof.
  unfold drive. revert d. induction inputs as [|v inputs IH]; intros d Hin; [done|].
  simpl. apply IH. by apply update_inside.
Qed.

(** C7. Boundary containment of the drone: a step whose tentative position
    [(x + vx, z + vz)] fails the test [0 <= . < GRID_SIZE] on either axis
    leaves the drone where it is, with its velocity as it was (a wall, not a
    reflection); a step that passes it moves the drone there; so from a
    position inside the field the drone stays inside, after one step and
    after any sequence of velocity inputs and steps. *)
Theorem drone_contained (GRID_SIZE : Z) (d : Drone.t) (inputs : list (float * float)) :
  Drone.inside GRID_SIZE (Drone.x d) (Drone.z d) = true →
  let nextX := (Drone.x d + Drone.vx d)%float in
  let nextZ := (Drone.z d + Drone.vz d)%float in
  (Drone.inside GRID_SIZE nextX nextZ = false → Drone.update GRID_SIZE d = d)
  ∧ (Drone.inside GRID_SIZE nextX nextZ = true →
     Drone.x (Drone.update GRID_SIZE d) = nextX ∧ Drone.z (Drone.update GRID_SIZE d) = nextZ)
  ∧ Drone.vx (Drone.update GRID_SIZE d) = Drone.vx d
  ∧ Drone.vz (Drone.update GRID_SIZE d) = Drone.vz d
  ∧ Drone.inside GRID_SIZE (Drone.x (Drone.update GRID_SIZE d))
      (Drone.z (Drone.update GRID_SIZE d)) = true
  ∧ Drone.inside GRID_SIZE (Drone.x (drive GRID_SIZE inputs d))
      (Drone.z (drive GRID_SIZE inputs d)) = true.
Proof.
  intros Hin nextX nextZ. split_and!.
  - intros Hout. unfold Drone.update. fold nextX nextZ. by rewrite Hout.
  - intros Hok. unfold Drone.update. fold nextX nextZ. by rewrite Hok.
  - unfold Drone.update. fold nextX nextZ. by destruct (Drone.inside GRID_SIZE nextX nextZ).
  - unfold Drone.update. fold nextX nextZ. by destruct (Drone.inside GRID_SIZE nextX nextZ).
  - by apply update_inside.
  - by apply drive_inside.
Qed.

(** ** The captured percentage *)

(** C8, at an input where the code leaves the claim. With 725 OCCUPIED cells
    of the 2500 of the default grid the exact percentage is 29; the code
    computes [(725 / 2500) * 100] in doubles, which is 28.999999999999996,
    and stores 28. *)
Theorem percent_rounds_down :
  square 50 grid_725
  ∧ Game.countOccupied 50 grid_725 = 725
  ∧ 725 * 100 / (50 * 50) = 29
  ∧ ((num_of_Z 725 / (num_of_Z 50 * num_of_Z 50)) * 100 <? 29)%float = true
  ∧ Game.capturedPercent (Game.calculateCaptured 50 state_725) = Fin 28.
Proof.
  split_and!; try by vm_compute.
  split; [done|]. unfold grid_725. repeat (apply Forall_cons; split; [done|]).
  apply Forall_nil_2.
Qed.

(** On the default grid the stored percentage is always the exact one or one
    less, lies in 0..100, and is at least the target exactly when the exact
    percentage is. *)
Lemma percent_default_grid occupied :
  0 ≤ occupied ≤ 2500 → percent_close 50 occupied = true.
Proof.
  intros Hocc.
  assert (forallb (percent_close 50) (seqZ 0 2501) = true) as Hall by (by vm_compute).
  rewrite forallb_forall in Hall. apply Hall, list_elem_of_In, elem_of_seqZ. lia.
Qed.

(** [calculateCaptured] emits LevelComplete iff the percentage it stores has
    reached the target. *)
Lemma calculateCaptured_signal N s :
  let s' := Game.calculateCaptured N s in
  Game.log s' = Game.log s ++
    (if inum_geb (Game.capturedPercent s') TARGET_PERCENT then [LevelComplete] else []).
Proof. simpl. by rewrite calculateCaptured_eq. Qed.

(** ** The order of a frame *)

Lemma enterCell_enemies N s :
  Game.enemies (state_of (Game.enterCell N s)) = Game.enemies s.
Proof.
  unfold Game.enterCell.
  destruct (negb _ || negb _); [|done].
  destruct (get2 _ _ _) as [c|]; [|done]. simpl.
  destruct (is_cell EMPTY c); [done|].
  destruct (is_cell OCCUPIED c && _); [by rewrite handleCapture_eq|].
  destruct (is_cell TRAIL c); [by rewrite die_eq|done].
Qed.

(** C9, as the code has it. The order of a frame: the drone moves; then the
    check of the drone's cell (trail, capture or death) runs, with the
    enemies still where the last frame left them; then the enemies are taken
    in turn, each one moved on the grid that the checks before it left and
    tested for its two collisions right after its own move, before the next
    enemy moves. *)
Theorem frame_order (GRID_SIZE : Z) (s : Game.t) :
  Game.messageHidden s = true →
  let moved_drone := Game.set_drone (Drone.update GRID_SIZE (Game.drone s)) s in
  Game.animate GRID_SIZE s
  = (Game.enterCell GRID_SIZE moved_drone >>= λ s1,
     Game.forEachEnemy GRID_SIZE [] (Game.enemies s1) s1)
  ∧ Game.enemies (state_of (Game.enterCell GRID_SIZE moved_drone)) = Game.enemies s
  ∧ (∀ moved e rest s1,
       Game.forEachEnemy GRID_SIZE moved (e :: rest) s1
       = match Enemy.update GRID_SIZE (Game.grid s1) e with
         | Throw e' => Throw (Game.set_enemies (moved ++ e' :: rest) s1)
         | Ok e' =>
             match Game.collide GRID_SIZE e' s1 with
             | Throw s2 => Throw (Game.set_enemies (moved ++ e' :: rest) s2)
             | Ok s2 => Game.forEachEnemy GRID_SIZE (moved ++ [e']) rest s2
             end
         end).
Proof.
  intros Hhid. simpl. split_and!.
  - unfold Game.animate. by rewrite Hhid.
  - by rewrite enterCell_enemies.
  - done.
Qed.

(** ** The border *)

Lemma grid_step_refl N g : square N g → grid_step N g g.
Proof. intros Hsq. split; [done|]. intros x y [] Hc; by rewrite Hc. Qed.

Lemma grid_step_trans N g1 g2 g3 :
  grid_step N g1 g2 → grid_step N g2 g3 → grid_step N g1 g3.
Proof.
  intros [Hsq2 H12] [Hsq3 H23]. split; [done|]. intros x y c Hc.
  pose proof (H12 x y c Hc) as H2. destruct c.
  - destruct H2 as [c2 Hc2]. pose proof (H23 x y c2 Hc2). destruct c2; eauto.
  - by apply (H23 x y OCCUPIED).
  - destruct H2 as [c2 Hc2]. pose proof (H23 x y c2 Hc2). destruct c2; eauto.
Qed.

Lemma grid_step_pointwise N g g' (F : Z → Z → CELL_TYPE → CELL_TYPE) :
  square N g' → (∀ x y, rd g' x y = F x y <$> rd g x y) →
  (∀ x y, F x y OCCUPIED = OCCUPIED) → grid_step N g g'.
Proof.
  intros Hsq Hrd HF. split; [done|]. intros x y c Hc. rewrite Hrd, Hc. simpl.
  destruct c; eauto. by rewrite HF.
Qed.

Lemma die_grid_step N s :
  square N (Game.grid s) → grid_step N (Game.grid s) (Game.grid (Game.die N s)).
Proof.
  intros Hsq. rewrite die_eq. simpl.
  destruct (clearTrail_rd N (Game.grid s) Hsq) as [Hsq' Hrd].
  by apply (grid_step_pointwise N _ _ (λ _ _, clear_of_trail)).
Qed.

Lemma handleCapture_grid_step N s :
  square N (Game.grid s) →
  grid_step N (Game.grid s) (Game.grid (Game.handleCapture N s)).
Proof.
  intros Hsq. rewrite handleCapture_eq. simpl.
  destruct (capture_grid N (Game.grid s) (Game.enemies s) Hsq) as [Hsq' Hrd].
  eapply (grid_step_pointwise N _ _ (λ x y c, if decide ((x, y) ∈ _) then _ else _));
    [done|exact Hrd|].
  intros x y. simpl. by case_decide.
Qed.

Lemma layTrail_grid_step N g i j :
  square N g → get2 g i j = Some (Some EMPTY) → grid_step N g (set2 g i j TRAIL).
Proof.
  intros Hsq Hc. apply get2_rd in Hc as (x & y & -> & -> & Hrd).
  rewrite (set2_wr g x y TRAIL EMPTY Hrd).
  pose proof (rd_Some_in_grid N g x y EMPTY Hsq Hrd) as Hin.
  split; [by apply square_wr|]. intros x' y' c Hc.
  rewrite (rd_wr N) by done. case_decide as Heq.
  - simplify_eq. eauto.
  - rewrite Hc. destruct c; eauto.
Qed.

Lemma enterCell_grid_step N s :
  square N (Game.grid s) →
  grid_step N (Game.grid s) (Game.grid (state_of (Game.enterCell N s))).
Proof.
  intros Hsq. unfold Game.enterCell.
  destruct (negb _ || negb _); [|by apply grid_step_refl].
  destruct (get2 _ _ _) as [c|] eqn:Hc; [|by apply grid_step_refl]. simpl.
  destruct (is_cell EMPTY c) eqn:He.
  { apply is_cell_true in He as ->. simpl. by apply layTrail_grid_step. }
  destruct (is_cell OCCUPIED c && _); [by apply handleCapture_grid_step|].
  destruct (is_cell TRAIL c); [by apply die_grid_step|by apply grid_step_refl].
Qed.

Lemma collide_grid_step N e s :
  square N (Game.grid s) →
  grid_step N (Game.grid s) (Game.grid (state_of (Game.collide N e s))).
Proof.
  intros Hsq. unfold Game.collide.
  assert (grid_step N (Game.grid s)
            (Game.grid (if Game.touches e (Game.drone s) then Game.die N s else s))) as H1.
  { destruct (Game.touches _ _); [by apply die_grid_step|by apply grid_step_refl]. }
  destruct (get2 _ _ _) as [c|]; [|done]. simpl.
  destruct (is_cell TRAIL c); [|done].
  eapply grid_step_trans; [exact H1|]. apply die_grid_step, H1.
Qed.

Lemma forEachEnemy_grid_step N todo moved s :
  square N (Game.grid s) →
  grid_step N (Game.grid s) (Game.grid (state_of (Game.forEachEnemy N moved todo s))).
Proof.
  revert moved s. induction todo as [|e rest IH]; intros moved s Hsq; simpl.
  { by apply grid_step_refl. }
  destruct (Enemy.update N (Game.grid s) e) as [e'|e']; [|by apply grid_step_refl].
  pose proof (collide_grid_step N e' s Hsq) as Hc.
  destruct (Game.collide N e' s) as [s'|s']; simpl in *; [|done].
  eapply grid_step_trans; [exact Hc|]. apply IH, Hc.
Qed.

Lemma animate_grid_step N s :
  square N (Game.grid s) →
  grid_step N (Game.grid s) (Game.grid (state_of (Game.animate N s))).
Proof.
  intros Hsq. unfold Game.animate.
  destruct (Game.messageHidden s); [|by apply grid_step_refl].
  pose proof (enterCell_grid_step N (Game.set_drone (Drone.update N (Game.drone s)) s) Hsq)
    as He.
  destruct (Game.enterCell N _) as [s1|s1]; simpl in *; [|done].
  eapply grid_step_trans; [exact He|]. apply forEachEnemy_grid_step, He.
Qed.

Lemma bordered_step N g g' : bordered N g → grid_step N g g' → bordered N g'.
Proof.
  intros [Hsq Hb] [Hsq' Hst]. split; [done|]. intros x y Hin Hon.
  by apply (Hst x y OCCUPIED), Hb.
Qed.

Lemma bordered_initGrid N : bordered N (Game.initGrid N).
Proof.
  destruct (initGrid_rd N) as [Hsq Hrd]. split; [done|]. intros x y Hin Hon.
  by rewrite Hrd, Hon.
Qed.

Lemma startLevel_grid cos sin N lvl random s :
  Game.grid (Game.startLevel cos sin N lvl random s) = Game.initGrid N.
Proof. unfold Game.startLevel. by rewrite calculateCaptured_eq. Qed.

Lemma reachable_bordered cos sin N s : reachable cos sin N s → bordered N (Game.grid s).
Proof.
  induction 1 as [lvl random s0|s Hs IH|k s Hs IH|random s Hs IH].
  - rewrite startLevel_grid. apply bordered_initGrid.
  - eapply bordered_step; [exact IH|]. apply animate_grid_step, IH.
  - by destruct k.
  - unfold Game.restart. simpl.
    destruct (inum_geb _ _); [destruct (Game.level s <? 3)|destruct (Game.lives s <=? 0)];
      rewrite ?startLevel_grid; try apply bordered_initGrid; done.
Qed.

(** C10. The border stays OCCUPIED: in every state of a run the grid is
    square and every cell of its two-cell border is OCCUPIED. The steps keep
    it so: laying the trail changes one cell, which was EMPTY; the capture
    leaves a cell as it was or makes it OCCUPIED; the death changes only
    TRAIL cells; and a whole frame, thrown or not, keeps every OCCUPIED cell
    OCCUPIED. *)
Theorem border_stays_occupied (Math_cos Math_sin : float → float) (GRID_SIZE : Z)
    (s : Game.t) :
  reachable Math_cos Math_sin GRID_SIZE s →
  square GRID_SIZE (Game.grid s)
  ∧ (∀ x y, in_grid GRID_SIZE (x, y) → on_border GRID_SIZE x y = true →
            rd (Game.grid s) x y = Some OCCUPIED)
  ∧ (∀ i j, get2 (Game.grid s) i j = Some (Some EMPTY) →
       ∀ x y, rd (set2 (Game.grid s) i j TRAIL) x y ≠ rd (Game.grid s) x y →
              i = Fin y ∧ j = Fin x ∧ rd (Game.grid s) x y = Some EMPTY)
  ∧ (∀ x y, rd (Game.grid (Game.handleCapture GRID_SIZE s)) x y = rd (Game.grid s) x y
            ∨ rd (Game.grid (Game.handleCapture GRID_SIZE s)) x y = Some OCCUPIED)
  ∧ (∀ x y, rd (Game.grid (Game.die GRID_SIZE s)) x y ≠ rd (Game.grid s) x y →
            rd (Game.grid s) x y = Some TRAIL)
  ∧ (∀ x y, rd (Game.grid s) x y = Some OCCUPIED →
            rd (Game.grid (state_of (Game.animate GRID_SIZE s))) x y = Some OCCUPIED).
Proof.
  intros Hreach. destruct (reachable_bordered _ _ _ _ Hreach) as [Hsq Hb].
  split_and!; [done|done| | | |].
  - intros i j Hc x y Hne. apply get2_rd in Hc as (x0 & y0 & -> & -> & Hrd).
    rewrite (set2_wr _ x0 y0 TRAIL EMPTY Hrd) in Hne.
    rewrite (rd_wr GRID_SIZE) in Hne by (try done; by eapply rd_Some_in_grid).
    case_decide as Heq; [|done]. by simplify_eq.
  - intros x y. rewrite handleCapture_eq. simpl.
    destruct (capture_grid GRID_SIZE (Game.grid s) (Game.enemies s) Hsq) as [_ Hrd].
    rewrite Hrd. destruct (rd (Game.grid s) x y) as [c|]; simpl; [|by left].
    case_decide; [by right|]. destruct c; simpl; auto.
  - intros x y. rewrite die_eq. simpl.
    destruct (clearTrail_rd GRID_SIZE (Game.grid s) Hsq) as [_ Hrd]. rewrite Hrd.
    by destruct (rd (Game.grid s) x y) as [[]|].
  - intros x y Hc. destruct (animate_grid_step GRID_SIZE s Hsq) as [_ Hst].
    apply (Hst x y OCCUPIED Hc).
Qed.

(** ** Properties kept by a frame *)

Section Closed.
Variables (N : Z) (P : Game.t → Prop).
Hypothesis P_die : ∀ s, P s → P (Game.die N s).
Hypothesis P_enemies : ∀ s es, P s → P (Game.set_enemies es s).

Lemma collide_closed e s : P s → P (state_of (Game.collide N e s)).
Proof.
  intros Hs. unfold Game.collide.
  assert (P (if Game.touches e (Game.drone s) then Game.die N s else s)) as H1.
  { destruct (Game.touches _ _); auto. }
  destruct (get2 _ _ _) as [c|]; [|done]. simpl. destruct (is_cell TRAIL c); auto.
Qed.

Lemma forEachEnemy_closed todo moved s :
  P s → P (state_of (Game.forEachEnemy N moved todo s)).
Proof.
  revert moved s. induction todo as [|e rest IH]; intros moved s Hs; simpl; [auto|].
  destruct (Enemy.update N (Game.grid s) e) as [e'|e']; [|simpl; auto].
  pose proof (collide_closed e' s Hs) as Hc.
  destruct (Game.collide N e' s) as [s'|s']; simpl in *; auto.
Qed.

Hypothesis P_capture : ∀ s, P s → P (Game.handleCapture N s).
Hypothesis P_trail : ∀ s g n,
  P s → P (Game.emit TrailStep (Game.set_trailCount n (Game.set_grid g s))).
Hypothesis P_drone_last : ∀ s gx gz,
  P s → P (Game.set_drone (Drone.set_last gx gz (Game.drone s)) s).
Hypothesis P_drone_update : ∀ s,
  P s → P (Game.set_drone (Drone.update N (Game.drone s)) s).

Lemma enterCell_closed s : P s → P (state_of (Game.enterCell N s)).
Proof.
  intros Hs. unfold Game.enterCell.
  destruct (negb _ || negb _); [|done].
  destruct (get2 _ _ _) as [c|]; [|done]. simpl. apply P_drone_last.
  destruct (is_cell EMPTY c); [auto|].
  destruct (is_cell OCCUPIED c && _); [auto|].
  destruct (is_cell TRAIL c); auto.
Qed.

Lemma animate_closed s : P s → P (state_of (Game.animate N s)).
Proof.
  intros Hs. unfold Game.animate. destruct (Game.messageHidden s); [|done].
  pose proof (enterCell_closed _ (P_drone_update s Hs)) as He.
  destruct (Game.enterCell N _) as [s1|s1]; simpl in *; [|done].
  by apply forEachEnemy_closed.
Qed.

End Closed.

(** The drone of a run stays inside the field, provided its start cell
    (1, 1) is inside (a grid of side 2 at least). *)
Lemma reachable_drone_inside cos sin N s :
  Drone.inside N 1 1 = true → reachable cos sin N s →
  Drone.inside N (Drone.x (Game.drone s)) (Drone.z (Game.drone s)) = true.
Proof.
  intros H11. induction 1 as [lvl random s0|s Hs IH|k s Hs IH|random s Hs IH].
  - unfold Game.startLevel. by rewrite calculateCaptured_eq.
  - apply (animate_closed N
      (λ s, Drone.inside N (Drone.x (Game.drone s)) (Drone.z (Game.drone s)) = true));
      try done.
    + intros s1 _. by rewrite die_eq.
    + intros s1 Hs1. by rewrite handleCapture_eq.
    + intros s1 Hs1. simpl. by apply update_inside.
  - by destruct k.
  - unfold Game.restart, Game.startLevel.
    destruct (inum_geb _ _); [destruct (Game.level s <? 3)|destruct (Game.lives s <=? 0)];
      rewrite ?calculateCaptured_eq; done.
Qed.

Lemma quiet_since_die N s0 s : quiet_since s0 s → quiet_since s0 (Game.die N s).
Proof.
  intros [Hp (sigs & Hl & Hn)]. rewrite die_eq. split; [done|]. simpl.
  exists (sigs ++ Death :: (if Game.lives s - 1 <=? 0 then [GameOver] else [])).
  split; [by rewrite Hl, <- app_assoc|].
  intros [?|[?|Hin]%elem_of_cons]%elem_of_app; [done..|].
  destruct (Game.lives s - 1 <=? 0); [|by apply elem_of_nil in Hin].
  by apply list_elem_of_singleton in Hin.
Qed.

(** LevelComplete is emitted in the frame in which the stored percentage
    reaches the target, and in no frame that leaves it below: the signals
    [sigs] of a frame hold LevelComplete only if the percentage is at least
    the target after the frame, and they do hold it if the percentage was
    below the target before. *)
Lemma levelComplete_on_crossing N s :
  let s' := state_of (Game.animate N s) in
  ∃ sigs, Game.log s' = Game.log s ++ sigs
    ∧ (LevelComplete ∈ sigs → inum_geb (Game.capturedPercent s') TARGET_PERCENT = true)
    ∧ (inum_geb (Game.capturedPercent s) TARGET_PERCENT = false →
       inum_geb (Game.capturedPercent s') TARGET_PERCENT = true → LevelComplete ∈ sigs).
Proof.
  simpl.
  assert (∀ s1, (quiet_since s s1
                 ∨ ∃ s2, quiet_since s s2 ∧ quiet_since (Game.handleCapture N s2) s1) →
    ∃ sigs, Game.log s1 = Game.log s ++ sigs
      ∧ (LevelComplete ∈ sigs → inum_geb (Game.capturedPercent s1) TARGET_PERCENT = true)
      ∧ (inum_geb (Game.capturedPercent s) TARGET_PERCENT = false →
         inum_geb (Game.capturedPercent s1) TARGET_PERCENT = true → LevelComplete ∈ sigs))
    as Hfin.
  { intros s1 [[Hp (sigs & Hl & Hn)]|(s2 & [Hp2 (sigs2 & Hl2 & Hn2)] & [Hp (sigs & Hl & Hn)])].
    - exists sigs. split_and!; [done|done|]. rewrite Hp. congruence.
    - rewrite handleCapture_eq in Hp, Hl. simpl in Hp, Hl.
      set (p := Game.percent N _) in *.
      exists (sigs2 ++ (Capture :: (if inum_geb p TARGET_PERCENT then [LevelComplete] else []))
              ++ sigs).
      split; [by rewrite Hl, Hl2, <- !app_assoc|]. rewrite Hp.
      destruct (inum_geb p TARGET_PERCENT) eqn:Hge.
      + split; [done|]. intros _ _. apply elem_of_app. right. apply elem_of_app. left.
        right. by left.
      + split; [|done]. intros [?|[Hin|?]%elem_of_app]%elem_of_app; [done| |done].
        apply elem_of_cons in Hin as [?|Hin]; [done|]. by apply elem_of_nil in Hin. }
  assert (quiet_since s s) as Hq0.
  { split; [done|]. exists []. split; [by rewrite app_nil_r|apply not_elem_of_nil]. }
  assert (∀ s0 s1 d, quiet_since s0 s1 → quiet_since s0 (Game.set_drone d s1)) as Hdrone.
  { by intros s0 s1 d [? ?]. }
  assert (∀ s0 todo moved s1, quiet_since s0 s1 →
            quiet_since s0 (state_of (Game.forEachEnemy N moved todo s1))) as Hloop.
  { intros s0 todo moved s1. apply (forEachEnemy_closed N (quiet_since s0)).
    - intros ?. apply quiet_since_die.
    - by intros ? ? [? ?]. }
  apply Hfin. unfold Game.animate. destruct (Game.messageHidden s); [|by left].
  set (s1 := Game.set_drone (Drone.update N (Game.drone s)) s).
  assert (quiet_since s s1) as Hq1 by (by apply Hdrone).
  clearbody s1. unfold Game.enterCell.
  destruct (negb _ || negb _); [|left; by apply Hloop].
  destruct (get2 _ _ _) as [c|]; [|by left]. cbn [bind].
  destruct (is_cell EMPTY c).
  { left. apply Hloop, Hdrone. destruct Hq1 as [Hp (sigs & Hl & Hn)]. split; [done|].
    exists (sigs ++ [TrailStep]). simpl. split; [by rewrite Hl, <- app_assoc|].
    intros [?|Hin]%elem_of_app; [done|]. by apply list_elem_of_singleton in Hin. }
  destruct (is_cell OCCUPIED c && _).
  { right. exists s1. split; [done|]. apply Hloop, Hdrone.
    split; [done|]. exists []. split; [by rewrite app_nil_r|apply not_elem_of_nil]. }
  left. apply Hloop, Hdrone. destruct (is_cell TRAIL c); [by apply quiet_since_die|done].
Qed.

(** On land without a trail the cell check runs no capture: the grid and the
    percentage stay as they are. *)
Lemma enterCell_land_without_trail N s :
  get2 (Game.grid s) (Math_floor (Drone.z (Game.drone s)))
    (Math_floor (Drone.x (Game.drone s))) = Some (Some OCCUPIED) →
  Game.trailCount s ≤ 0 →
  Game.grid (state_of (Game.enterCell N s)) = Game.grid s
  ∧ Game.capturedPercent (state_of (Game.enterCell N s)) = Game.capturedPercent s
  ∧ Game.log (state_of (Game.enterCell N s)) = Game.log s.
Proof.
  intros Hc Ht. unfold Game.enterCell. destruct (negb _ || negb _); [|done].
  rewrite Hc. replace (0 <? Game.trailCount s) with false by lia. done.
Qed.

(** * The theorems at concrete states *)

Lemma square_trail_grid : square 10 trail_grid.
Proof. split; [reflexivity|]. repeat (apply Forall_cons; split; [reflexivity|]). apply Forall_nil_2. Defined.

(** C1 at the grid with the trail in column 4 and one ball on its left. *)
Lemma getFillableAreas_correct_witness :
  square 10 trail_grid
  ∧ ∀ p, p ∈ concat (FloodFill.getFillableAreas 10 trail_grid (Game.enemies trail_state))
         ↔ fillable trail_grid (Game.enemies trail_state) p.
Proof.
  split; [exact square_trail_grid|].
  exact (proj1 (getFillableAreas_correct 10 trail_grid (Game.enemies trail_state)
                  square_trail_grid)).
Defined.


(** C3 as stated fails on a new game of side 10 before its enemies exist: no
    trail, the counter is 0, the stored percentage is that of the grid, and
    the capture event turns the whole EMPTY interior to OCCUPIED and the
    percentage from 64 to 100. *)
Lemma capture_idempotence_counterexample :
  Game.trailCount fresh_state = 0
  ∧ bool_decide (TRAIL ∈ concat (Game.grid fresh_state)) = false
  ∧ Game.capturedPercent fresh_state
    = Game.percent 10 (Game.countOccupied 10 (Game.grid fresh_state))
  ∧ rd (Game.grid fresh_state) 2 2 = Some EMPTY
  ∧ rd (Game.grid (Game.handleCapture 10 fresh_state)) 2 2 = Some OCCUPIED
  ∧ Game.capturedPercent fresh_state = Fin 64
  ∧ Game.capturedPercent (Game.handleCapture 10 fresh_state) = Fin 100.
Proof. split_and!; vm_compute; reflexivity. Qed.

(** C3 as amended, at a level that has just started with a ball inside. *)
Lemma capture_without_trail_witness :
  square 10 (Game.grid guarded_state)
  ∧ (TRAIL ∉ concat (Game.grid guarded_state))
  ∧ (∀ p, ¬ fillable (Game.grid guarded_state) (Game.enemies guarded_state) p)
  ∧ Game.capturedPercent guarded_state
    = Game.percent 10 (Game.countOccupied 10 (Game.grid guarded_state))
  ∧ Game.grid (Game.handleCapture 10 guarded_state) = Game.grid guarded_state
  ∧ Game.capturedPercent (Game.handleCapture 10 guarded_state)
    = Game.capturedPercent guarded_state.
Proof.
  assert (square 10 (Game.grid guarded_state)) as Hsq by apply initGrid_rd.
  assert (TRAIL ∉ concat (Game.grid guarded_state)) as Hnt.
  { apply (bool_decide_eq_false_1 (TRAIL ∈ concat (Game.grid guarded_state))).
    vm_compute. reflexivity. }
  assert (∀ p, ¬ fillable (Game.grid guarded_state) (Game.enemies guarded_state) p) as Hnf.
  { intros p Hp.
    apply (getFillableAreas_fillable 10 _ (Game.enemies guarded_state) Hsq) in Hp.
    revert Hp. vm_compute. apply not_elem_of_nil. }
  assert (Game.capturedPercent guarded_state
    = Game.percent 10 (Game.countOccupied 10 (Game.grid guarded_state))) as Hpc
    by (vm_compute; reflexivity).
  destruct (capture_without_trail 10 guarded_state Hsq Hnt Hnf Hpc) as (Hg & Hp & _).
  split_and!; assumption.
Defined.

(** C4 at [trail_state]. *)
Lemma death_event_witness :
  square 10 (Game.grid trail_state)
  ∧ Game.lives (Game.die 10 trail_state) = Game.lives trail_state - 1
  ∧ (∀ p, ¬ cell_is (Game.grid (Game.die 10 trail_state)) TRAIL p)
  ∧ Game.trailCount (Game.die 10 trail_state) = 0.
Proof.
  destruct (death_event 10 trail_state square_trail_grid)
    as ((_ & Hl & _ & Hnt & Htc & _) & _).
  split_and!; [exact square_trail_grid|exact Hl|exact Hnt|exact Htc].
Defined.

(** C5 as stated fails at [trail_state]: the drone flies down with
    [vz = 0.15] and has [vz = 0] after the death event. *)
Lemma die_keeps_velocity_counterexample :
  Drone.vz (Game.drone trail_state) = 0.15%float
  ∧ Drone.vz (Game.drone (Game.die 10 trail_state)) = 0%float
  ∧ (0.15 =? 0)%float = false
  ∧ Drone.vz (Game.drone (Game.die 10 trail_state)) ≠ Drone.vz (Game.drone trail_state).
Proof.
  split_and!; try (vm_compute; reflexivity).
  intros H. apply (f_equal (λ v, (v =? 0)%float)) in H. vm_compute in H. discriminate.
Qed.


(** C7 at the drone of [trail_state], with a turn to the right, a turn up and
    a velocity that would throw it out of the field. *)
Lemma drone_contained_witness :
  Drone.inside 10 (Drone.x (Game.drone trail_state)) (Drone.z (Game.drone trail_state)) = true
  ∧ let d := drive 10 [(0.15, 0); (0, -0.15); (20, 0); (0.15, 0)]%float
               (Game.drone trail_state) in
    Drone.inside 10 (Drone.x d) (Drone.z d) = true.
Proof.
  assert (Drone.inside 10 (Drone.x (Game.drone trail_state))
            (Drone.z (Game.drone trail_state)) = true) as Hin by (vm_compute; reflexivity).
  split; [exact Hin|].
  exact (proj2 (proj2 (proj2 (proj2 (proj2
    (drone_contained 10 (Game.drone trail_state)
       [(0.15, 0); (0, -0.15); (20, 0); (0.15, 0)]%float Hin)))))).
Defined.

(** C9 as stated fails at [trail_state]. In the code the capture runs while
    the ball is still in cell (3, 2): the part of the field left of the trail
    keeps its ball and stays EMPTY, and the ball then bounces off the new
    land. With all motion resolved first, the ball would be on the trail cell
    (4, 2) when the capture runs, and the left part would be captured too. *)
Lemma motion_first_counterexample :
  rd (Game.grid (state_of (Game.animate 10 trail_state))) 2 2 = Some EMPTY
  ∧ rd (Game.grid (state_of (Spec.tick 10 trail_state))) 2 2 = Some OCCUPIED
  ∧ Game.capturedPercent (state_of (Game.animate 10 trail_state)) = Fin 88
  ∧ Game.capturedPercent (state_of (Spec.tick 10 trail_state)) = Fin 100
  ∧ (λ e, Math_floor (Enemy.x e)) <$> Game.enemies (state_of (Game.animate 10 trail_state))
    = [Fin 3]
  ∧ (λ e, Math_floor (Enemy.x e)) <$> Game.enemies (state_of (Spec.tick 10 trail_state))
    = [Fin 4]
  ∧ Game.animate 10 trail_state ≠ Spec.tick 10 trail_state.
Proof.
  split_and!; try (vm_compute; reflexivity).
  intros H. apply (f_equal (λ r, Game.capturedPercent (state_of r))) in H.
  vm_compute in H. discriminate.
Qed.

(** C9 as amended, at [trail_state]. *)
Lemma frame_order_witness :
  Game.messageHidden trail_state = true
  ∧ Game.animate 10 trail_state
    = (Game.enterCell 10 (Game.set_drone (Drone.update 10 (Game.drone trail_state)) trail_state)
       >>= λ s1, Game.forEachEnemy 10 [] (Game.enemies s1) s1).
Proof.
  split; [reflexivity|].
  exact (proj1 (frame_order 10 trail_state eq_refl)).
Defined.

(** C10 at the first frame of a level on a grid of side 10. *)
Lemma border_stays_occupied_witness :
  let s := state_of (Game.animate 10
             (Game.startLevel (λ _, 1%float) (λ _, 0%float) 10 1 (λ _, 0.5%float) fresh_state)) in
  reachable (λ _, 1%float) (λ _, 0%float) 10 s
  ∧ ∀ x y, in_grid 10 (x, y) → on_border 10 x y = true → rd (Game.grid s) x y = Some OCCUPIED.
Proof.
  assert (reachable (λ _, 1%float) (λ _, 0%float) 10
            (state_of (Game.animate 10
               (Game.startLevel (λ _, 1%float) (λ _, 0%float) 10 1 (λ _, 0.5%float) fresh_state))))
    as Hreach by (apply reach_frame, reach_start).
  split; [exact Hreach|].
  exact (proj1 (proj2 (border_stays_occupied _ _ 10 _ Hreach))).
Defined.

(** * The scenarios of the specification, run on the model *)

(** On a 10 by 10 grid without enemies the drone flies right along the border
    to column 2, down to row 5, laying four trail cells, and left back to the
    border: the capture turns the whole interior to OCCUPIED and the trail
    counter to 0. *)
Example scenario_capture :
  let s1 := frames 10 7 (Game.keydown ArrowRight fresh_state) in
  let s2 := frames 10 27 (Game.keydown ArrowDown s1) in
  let s3 := frames 10 1 (Game.keydown ArrowLeft s2) in
  Game.trailCount s2 = 4
  ∧ (λ p : pos, rd (Game.grid s2) p.1 p.2) <$> [(2, 2); (2, 3); (2, 4); (2, 5); (2, 6)]
    = [Some TRAIL; Some TRAIL; Some TRAIL; Some TRAIL; Some EMPTY]
  ∧ Game.trailCount s3 = 0
  ∧ bool_decide (EMPTY ∈ concat (Game.grid s3)) = false
  ∧ bool_decide (TRAIL ∈ concat (Game.grid s3)) = false
  ∧ Game.log s3 = [TrailStep; TrailStep; TrailStep; TrailStep; Capture; LevelComplete].
Proof. vm_compute. by split_and!. Qed.

(** A ball whose tentative x cell is OCCUPIED inverts [vx] and keeps [vz]. *)
Example scenario_ball :
  Enemy.update 10 trail_grid ball_at_shore
  = Ok {| Enemy.x := (7.97 + 0.05 * -1)%float; Enemy.z := (5.5 + 0.05)%float;
          Enemy.type := ball; Enemy.speed := 0.07;
          Enemy.vx := (-0.05)%float; Enemy.vz := 0.05 |}.
Proof. by vm_compute. Qed.

(** A mine on the left border whose tentative x cell is EMPTY turns back; a
    ball at the same place flies on. *)
Example scenario_mine :
  let at_shore k :=
    {| Enemy.x := 1.97; Enemy.z := 5.5; Enemy.type := k; Enemy.speed := 0.05;
       Enemy.vx := 0.05; Enemy.vz := 0 |} in
  (Enemy.vx <$> [state_of (Enemy.update 10 trail_grid (at_shore mine));
                 state_of (Enemy.update 10 trail_grid (at_shore ball))])
  = [(-0.05)%float; 0.05%float]
  ∧ ((λ e, Math_floor (Enemy.x e))
       <$> [state_of (Enemy.update 10 trail_grid (at_shore mine));
            state_of (Enemy.update 10 trail_grid (at_shore ball))])
    = [Fin 1; Fin 2].
Proof. by vm_compute. Qed.

(** The drone turns back onto its own trail: one Death signal, one life less,
    no TRAIL cell left, trail counter 0, drone on (1, 1). *)
Example scenario_self_collision :
  let s := Game.set_drone
             {| Drone.x := 4.5; Drone.z := 7.1; Drone.vx := 0; Drone.vz := -0.15;
                Drone.lastX := Fin 4; Drone.lastZ := Fin 7; Drone.speed := 0.15 |}
             (Game.set_enemies [] trail_state) in
  let s' := state_of (Game.animate 10 s) in
  Game.log s' = Game.log s ++ [Death]
  ∧ Game.lives s' = Game.lives s - 1
  ∧ bool_decide (TRAIL ∈ concat (Game.grid s')) = false
  ∧ Game.trailCount s' = 0
  ∧ (Drone.x (Game.drone s'), Drone.z (Game.drone s')) = (1%float, 1%float).
Proof. vm_compute. by split_and!. Qed.

(** [Math.floor] on negative numbers, zeros, infinities and NaN. *)
Example Math_floor_values :
  Math_floor <$> [2.5; -2.5; -0.05; 0; -0; 49.99999; infinity; neg_infinity; nan]%float
  = [Fin 2; Fin (-3); Fin (-1); Fin 0; Fin 0; Fin 49; PInf; NInf; NaN].
Proof. by vm_compute. Qed.

(** Level 1 played on the default grid: rows 2 to 8 and 19 cells of row 9 are
    captured in eight captures without a loss; 725 of the 2500 cells are
    OCCUPIED and the percentage on display is 28. *)
Example scenario_sweep :
  let s := play 50 sweep_rows level1_state in
  Game.grid s = grid_725
  ∧ Game.countOccupied 50 (Game.grid s) = 725
  ∧ Game.capturedPercent s = Fin 28
  ∧ Game.lives s = 3
  ∧ Game.trailCount s = 0
  ∧ filter (λ x, x = Capture) (Game.log s) = replicate 8 Capture.
Proof. vm_compute. by split_and!. Qed.
